(** * ValSimP tagged files: a shallow embedding of [valsimp/files/taggedfile.py]

    The development follows the module top to bottom: the Python primitives
    the module relies on, the regular expressions of [re], the converters,
    [TaggedEntry], [TaggedCollection] and [TaggedReader].

    Conventions.
    - A Python [str] is the list of its characters; characters are the 256
      code points U+0000..U+00FF.
    - A Python [dict] is a [gmap]; a Python [list] is a [list].
    - A call that may raise returns a [result]; a method that mutates its
      object returns the new object next to its outcome. *)

From Stdlib Require Import Ascii String ZArith.
From stdpp Require Import gmap strings list fin_maps.

Set Default Proof Using "Type".
Open Scope string_scope.
Open Scope list_scope.
Open Scope nat_scope.

(* ===================================================================== *)
(** ** Python strings *)
(* ===================================================================== *)

Abbreviation str := (list ascii).

(** A string literal as a Python [str]. *)
Definition lit (s : string) : str := list_ascii_of_string s.

Definition chr_eqb (a b : ascii) : bool := Ascii.eqb a b.

(** [ch.isspace()]: the characters [str.split], [str.strip] and the class
    [\s] treat as white space (TAB..CR, FS..US, space, NEL, NBSP). *)
Definition isspace (c : ascii) : bool :=
  let n := nat_of_ascii c in
  ((9 <=? n) && (n <=? 13)) || ((28 <=? n) && (n <=? 32))
  || (n =? 133) || (n =? 160).

(** The class [\d]: decimal digits. *)
Definition isdigit (c : ascii) : bool :=
  let n := nat_of_ascii c in (48 <=? n) && (n <=? 57).

Definition newline : ascii := ascii_of_nat 10.

(** [s.startswith("@")] *)
Definition startswith_at (s : str) : bool :=
  match s with
  | c :: _ => chr_eqb c "@"
  | [] => false
  end.

Fixpoint dropwhile (p : ascii -> bool) (s : str) : str :=
  match s with
  | c :: s' => if p c then dropwhile p s' else s
  | [] => []
  end.

(** [s.strip()] *)
Definition strip (s : str) : str :=
  rev (dropwhile isspace (rev (dropwhile isspace s))).

(** [s.split()]: the maximal runs of non-blank characters, in order.
    [cur] is the run being read, reversed. *)
Fixpoint split_from (cur : str) (s : str) : list str :=
  match s with
  | [] => match cur with [] => [] | _ => [rev cur] end
  | c :: s' =>
      if isspace c
      then match cur with
           | [] => split_from [] s'
           | _ => rev cur :: split_from [] s'
           end
      else split_from (c :: cur) s'
  end.

Definition split (s : str) : list str := split_from [] s.

(** [s.split(sep)] for a one-character separator: empty fields are kept,
    and the empty string gives one empty field. *)
Fixpoint split_on (sep : ascii) (s : str) : list str :=
  match s with
  | [] => [[]]
  | c :: s' =>
      if chr_eqb c sep then [] :: split_on sep s'
      else match split_on sep s' with
           | w :: ws => (c :: w) :: ws
           | [] => [[c]]
           end
  end.

(** [int(s)] on the texts the module applies it to: a run of decimal digits
    (a group matched by [\d] or [\d+]) or the empty string.  The empty string
    and any other character make [int] raise [ValueError] ([None] here). *)
Definition digit_val (c : ascii) : nat := nat_of_ascii c - 48.

Definition int_digits (s : str) : option nat :=
  match s with
  | [] => None
  | _ => if forallb isdigit s
         then Some (fold_left (fun acc c => 10 * acc + digit_val c) s 0)
         else None
  end.

(* ===================================================================== *)
(** ** Exceptions and outcomes *)
(* ===================================================================== *)

(** The exceptions of the module ([InvalidEntryError], [ConversionError])
    and the built-in ones its code can raise. *)
Inductive exn : Type :=
| InvalidEntryError (start end_ : nat) (msg : str)
| ConversionError (msg : str)
| AttributeError
| IndexError
| TypeError
| ValueError
| StopIteration.

Inductive result (A : Type) : Type :=
| Ok (a : A)
| Raise (e : exn).
Arguments Ok {A} a.
Arguments Raise {A} e.

(** Sequencing of calls that may raise, in stdpp's monad notation
    [x ← call; rest]. *)
#[global] Instance result_bind : MBind result := fun A B f r =>
  match r with
  | Ok a => f a
  | Raise e => Raise e
  end.

(* ===================================================================== *)
(** ** Regular expressions ([re]) *)
(* ===================================================================== *)

Module Re.

(** The fragment of [re] syntax the module and its examples use.  Quantifiers
    are greedy, alternatives are tried left to right. *)
Inductive re : Type :=
| Eps                            (* the empty pattern *)
| Chr (p : ascii -> bool)        (* one character of a class *)
| Cat (r1 r2 : re)               (* r1r2 *)
| Alt (r1 r2 : re)               (* r1|r2 *)
| Star (r : re)                  (* r* *)
| Grp (g : string) (r : re)      (* (?P<g>r) *)
| Bos                            (* ^ without re.MULTILINE *)
| Eos.                           (* $ without re.MULTILINE *)

Definition Plus (r : re) : re := Cat r (Star r).      (* r+ *)
Definition Opt (r : re) : re := Alt r Eps.            (* r? *)
Definition Lit (c : ascii) : re := Chr (chr_eqb c).
Definition NoneOf (cs : list ascii) : re :=           (* [^...] *)
  Chr (fun c => negb (existsb (chr_eqb c) cs)).
Definition Digit : re := Chr isdigit.                 (* \d *)
Definition Space : re := Chr isspace.                 (* \s *)

(** A literal text, character by character. *)
Fixpoint Text (s : str) : re :=
  match s with
  | [] => Eps
  | c :: s' => Cat (Lit c) (Text s')
  end.

(** The groups of a match, most recent first. *)
Definition captures := list (string * str).

(** The greedy loop of [r*]: [body] matches [r] once; an iteration that
    consumes nothing ends the repetition, so [length s] turns are enough. *)
Fixpoint star_loop {A : Type}
    (body : str -> captures -> (str -> captures -> option A) -> option A)
    (k : str -> captures -> option A)
    (fuel : nat) (s : str) (caps : captures) : option A :=
  match fuel with
  | O => k s caps
  | S fuel' =>
      match body s caps
              (fun s1 c1 =>
                 if length s1 <? length s then star_loop body k fuel' s1 c1
                 else None) with
      | Some x => Some x
      | None => k s caps
      end
  end.

(** The backtracking matcher.  [inp] is the whole subject, [s] what is left
    of it, [k] the rest of the pattern. *)
Fixpoint run {A : Type} (inp : str) (r : re) (s : str) (caps : captures)
    (k : str -> captures -> option A) {struct r} : option A :=
  match r with
  | Eps => k s caps
  | Chr p =>
      match s with
      | c :: s' => if p c then k s' caps else None
      | [] => None
      end
  | Cat r1 r2 => run inp r1 s caps (fun s1 c1 => run inp r2 s1 c1 k)
  | Alt r1 r2 =>
      match run inp r1 s caps k with
      | Some x => Some x
      | None => run inp r2 s caps k
      end
  | Star r1 => star_loop (run inp r1) k (length s) s caps
  | Grp g r1 =>
      run inp r1 s caps
        (fun s1 c1 => k s1 ((g, take (length s - length s1) s) :: c1))
  | Bos => if length s =? length inp then k s caps else None
  | Eos =>
      match s with
      | [] => k s caps
      | [c] => if chr_eqb c newline then k s caps else None
      | _ => None
      end
  end.

(** [pattern.match(s)]: the groups of the first match found at offset 0, or
    [None]. *)
Definition match_ (pattern : re) (s : str) : option captures :=
  run s pattern s [] (fun _ caps => Some caps).

(** [m.group(g)] *)
Fixpoint group (caps : captures) (g : string) : str :=
  match caps with
  | [] => []
  | (g', v) :: rest => if String.eqb g g' then v else group rest g
  end.

(** What it means for a pattern to match: [matches inp r s s'] when [r]
    can consume the part of [s] in front of [s'], [s] being a suffix of the
    subject [inp]. *)
Inductive matches (inp : str) : re -> str -> str -> Prop :=
| M_Eps s : matches inp Eps s s
| M_Chr p c s : p c = true -> matches inp (Chr p) (c :: s) s
| M_Cat r1 r2 s s1 s2 :
    matches inp r1 s s1 -> matches inp r2 s1 s2 ->
    matches inp (Cat r1 r2) s s2
| M_AltL r1 r2 s s1 : matches inp r1 s s1 -> matches inp (Alt r1 r2) s s1
| M_AltR r1 r2 s s1 : matches inp r2 s s1 -> matches inp (Alt r1 r2) s s1
| M_StarNil r s : matches inp (Star r) s s
| M_StarCons r s s1 s2 :
    matches inp r s s1 -> length s1 < length s ->
    matches inp (Star r) s1 s2 -> matches inp (Star r) s s2
| M_Grp g r s s1 : matches inp r s s1 -> matches inp (Grp g r) s s1
| M_Bos s : length s = length inp -> matches inp Bos s s
| M_Eos s : s = [] \/ s = [newline] -> matches inp Eos s s.

(** The pattern matches at offset 0 of the subject. *)
Definition matches_at_start (pattern : re) (s : str) : Prop :=
  exists rest, matches s pattern s rest.

End Re.

(* ===================================================================== *)
(** ** numpy *)
(* ===================================================================== *)

(** What the module takes from numpy: the types of its floats and complex
    numbers ([Carriers]), the conversion of one token to a float or to an
    integer ([np.array(values, dtype=...)] converts every token or raises),
    the text of the exception raised on a bad token list, and the complex
    number [re + 1.0j * im].  The module does not depend on how these are
    computed, only on whether a token converts. *)
Class Carriers := {
  real : Type;
  complex : Type
}.

Class Numpy `{Carriers} := {
  float_of_str : str -> option real;
  int_of_str : str -> option Z;
  make_complex : real -> real -> complex;
  exc_text : list str -> str
}.

(** One reading of these conversions, used to run the examples: a real is
    kept as its literal, [sign digits [. digits] [e sign digits]], read by a
    small automaton. *)
Module Literal.

Inductive state : Type :=
| Start | Signed | Int | Dot | Frac | Exp | ExpSigned | ExpInt.

Definition is_sign (c : ascii) : bool := chr_eqb c "+" || chr_eqb c "-".
Definition is_exp (c : ascii) : bool := chr_eqb c "e" || chr_eqb c "E".

Definition step (st : state) (c : ascii) : option state :=
  match st with
  | Start =>
      if is_sign c then Some Signed
      else if isdigit c then Some Int
      else if chr_eqb c "." then Some Dot else None
  | Signed =>
      if isdigit c then Some Int
      else if chr_eqb c "." then Some Dot else None
  | Int =>
      if isdigit c then Some Int
      else if chr_eqb c "." then Some Frac
      else if is_exp c then Some Exp else None
  | Dot => if isdigit c then Some Frac else None
  | Frac =>
      if isdigit c then Some Frac
      else if is_exp c then Some Exp else None
  | Exp =>
      if is_sign c then Some ExpSigned
      else if isdigit c then Some ExpInt else None
  | ExpSigned => if isdigit c then Some ExpInt else None
  | ExpInt => if isdigit c then Some ExpInt else None
  end.

Definition accepting (st : state) : bool :=
  match st with
  | Int | Frac | ExpInt => true
  | _ => false
  end.

Fixpoint accepts (st : state) (tok : str) : bool :=
  match tok with
  | [] => accepting st
  | c :: tok' =>
      match step st c with
      | Some st' => accepts st' tok'
      | None => false
      end
  end.

Definition float_literal (tok : str) : option str :=
  if accepts Start tok then Some tok else None.

Definition int_literal (tok : str) : option Z :=
  match tok with
  | "-"%char :: ds => (fun n => (- Z.of_nat n)%Z) <$> int_digits ds
  | "+"%char :: ds => Z.of_nat <$> int_digits ds
  | _ => Z.of_nat <$> int_digits tok
  end.

Definition carriers : Carriers := {| real := str; complex := str * str |}.

Definition numpy : @Numpy carriers :=
  @Build_Numpy carriers
    float_literal                                 (* float_of_str *)
    int_literal                                   (* int_of_str *)
    (fun re im => (re, im))                       (* make_complex *)
    (fun _ => lit "could not convert string").    (* exc_text *)

End Literal.

(* ===================================================================== *)
(** ** Conversion functors *)
(* ===================================================================== *)

Section Converters.
Context `{Numpy}.

(** A one-dimensional numpy array of one of the four element types. *)
Inductive array : Type :=
| AFloat (l : list real)
| AInt (l : list Z)
| AComplex (l : list complex)
| ABool (l : list bool).

(** One element of such an array. *)
Inductive item : Type :=
| IFloat (x : real)
| IInt (x : Z)
| IComplex (x : complex)
| IBool (x : bool).

Definition array_len (a : array) : nat :=
  match a with
  | AFloat l => length l
  | AInt l => length l
  | AComplex l => length l
  | ABool l => length l
  end.

(** [result[0]] *)
Definition array_first (a : array) : result item :=
  match a with
  | AFloat (x :: _) => Ok (IFloat x)
  | AInt (x :: _) => Ok (IInt x)
  | AComplex (x :: _) => Ok (IComplex x)
  | ABool (x :: _) => Ok (IBool x)
  | _ => Raise IndexError
  end.

Definition array_of_item (i : item) : array :=
  match i with
  | IFloat x => AFloat [x]
  | IInt x => AInt [x]
  | IComplex x => AComplex [x]
  | IBool x => ABool [x]
  end.

(** The argument [strvalue] of a converter: a string or a list of strings. *)
Inductive pyarg : Type :=
| PStr (s : str)
| PList (lines : list str).

(** What a converter returns: a list of values, or a single value when
    [nolist] is set. *)
Inductive converted : Type :=
| CArray (a : array)
| CItem (i : item).

Inductive converter_class : Type :=
| FloatConverter
| IntConverter
| ComplexConverter
| LogicalConverter.

Record Converter := {
  cls : converter_class;
  nolist : bool
}.

(** [tmp[0::2]] and [tmp[1::2]] *)
Fixpoint evens {A} (l : list A) : list A :=
  match l with
  | x :: _ :: l' => x :: evens l'
  | [x] => [x]
  | [] => []
  end.

Definition odds {A} (l : list A) : list A :=
  match l with
  | _ :: l' => evens l'
  | [] => []
  end.

(** [tmp[0::2] + 1.0j * tmp[1::2]] under numpy's broadcasting: equal
    lengths combine element by element, a length of one is stretched, any
    other pair of lengths raises. *)
Definition broadcast_complex (res ims : list real) : option (list complex) :=
  if length res =? length ims then Some (zip_with make_complex res ims)
  else match res, ims with
       | _, [im] => Some (map (fun re => make_complex re im) res)
       | [re], _ => Some (map (fun im => make_complex re im) ims)
       | _, _ => None
       end.

Definition FloatConverter_convert (values : list str) : result array :=
  match mapM float_of_str values with
  | Some l => Ok (AFloat l)
  | None => Raise (ConversionError
                     (lit "Unable to convert string to float: " ++ exc_text values))
  end.

Definition IntConverter_convert (values : list str) : result array :=
  match mapM int_of_str values with
  | Some l => Ok (AInt l)
  | None => Raise (ConversionError
                     (lit "Unable to convert string to integer: " ++ exc_text values))
  end.

Definition ComplexConverter_convert (values : list str) : result array :=
  match tmp ← mapM float_of_str values; broadcast_complex (evens tmp) (odds tmp) with
  | Some ll => Ok (AComplex ll)
  | None => Raise (ConversionError
                     (lit "Unable to convert string to complex: " ++ exc_text values))
  end.

Fixpoint LogicalConverter_loop (values : list str) : result (list bool) :=
  match values with
  | [] => Ok []
  | val :: rest =>
      if decide (val = lit "T" \/ val = lit "t") then
        ll ← LogicalConverter_loop rest; Ok (true :: ll)
      else if decide (val = lit "F" \/ val = lit "f") then
        ll ← LogicalConverter_loop rest; Ok (false :: ll)
      else Raise (ConversionError
                    (lit "Unable to convert '" ++ val ++ lit "' to logical: "))
  end.

Definition LogicalConverter_convert (values : list str) : result array :=
  ll ← LogicalConverter_loop values; Ok (ABool ll).

(** [self.convert(values)], dispatched on the class of [self]. *)
Definition convert (self : Converter) (values : list str) : result array :=
  match cls self with
  | FloatConverter => FloatConverter_convert values
  | IntConverter => IntConverter_convert values
  | ComplexConverter => ComplexConverter_convert values
  | LogicalConverter => LogicalConverter_convert values
  end.

(** [return result[0]] or [return result] *)
Definition deliver (self : Converter) (result_ : array) : result converted :=
  if nolist self then i ← array_first result_; Ok (CItem i)
  else Ok (CArray result_).

(** [Converter.__call__] *)
Definition Converter_call (self : Converter) (strvalue : pyarg) : result converted :=
  let values :=
    match strvalue with
    | PList lines => concat (map split lines)
    | PStr s => split s
    end in
  if nolist self && (1 <? length values)
  then Raise (ConversionError (lit "Too many values"))
  else result_ ← convert self values; deliver self result_.

(** [ComplexConverter.__call__]: it overrides the one above and calls
    [strvalue.split()] whatever [strvalue] is; a list has no [split]. *)
Definition ComplexConverter_call (self : Converter) (strvalue : pyarg) : result converted :=
  match strvalue with
  | PList _ => Raise AttributeError
  | PStr s =>
      let values := split s in
      if negb (length values mod 2 =? 0)
      then Raise (ConversionError (lit "Complex converter needs even strings"))
      else if nolist self && negb (length values =? 2)
      then Raise (ConversionError (lit "Too many values"))
      else result_ ← convert self values; deliver self result_
  end.

(** [self(strvalue)]: the [__call__] of the class of [self]. *)
Definition call (self : Converter) (strvalue : pyarg) : result converted :=
  match cls self with
  | ComplexConverter => ComplexConverter_call self strvalue
  | _ => Converter_call self strvalue
  end.

End Converters.

(* ===================================================================== *)
(** ** Tagged data related objects *)
(* ===================================================================== *)

#[global] Instance result_ret : MRet result := fun A a => Ok a.

(** [int(s)], raising [ValueError]. *)
Definition int_ (s : str) : result nat :=
  match int_digits s with
  | Some n => Ok n
  | None => Raise ValueError
  end.

(** [_PAT_TAGLINE], piece by piece as the source writes it. *)
Definition _PAT_TAGLINE : Re.re :=
  let Cat := Re.Cat in
  Cat Re.Bos                                               (* ^ *)
  (Cat (Re.Lit "@")                                        (* @ *)
  (Cat (Re.Grp "name" (Re.Plus (Re.NoneOf [":"; " "]%char))) (* (?P<name>[^: ]+) *)
  (Cat (Re.Star Re.Space)                                  (* \s* *)
  (Cat (Re.Lit ":")                                        (* : *)
  (Cat (Re.Grp "dtype" (Re.Plus (Re.NoneOf [":"]%char)))   (* (?P<dtype>[^:]+) *)
  (Cat (Re.Lit ":")                                        (* : *)
  (Cat (Re.Grp "rank" Re.Digit)                            (* (?P<rank>\d) *)
  (Cat (Re.Lit ":")                                        (* : *)
  (Cat (Re.Grp "shape"                                     (* (?P<shape>(?: .. )?) *)
          (Re.Opt (Cat (Re.Plus Re.Digit)                  (*   \d+ *)
                       (Re.Star (Cat (Re.Lit ",") (Re.Plus Re.Digit)))))) (* (?:,\d+)* *)
       Re.Eos))))))))).                                    (* $ *)

Section Tagged.
Context `{Numpy}.

(** The array [np.reshape] returns: a shape and the values in row-major
    order. *)
Record ndarray := {
  nd_shape : list nat;
  nd_flat : array
}.

Record TaggedEntry := {
  tagline : str;
  name : str;
  dtype : str;
  rank : nat;
  shape : list nat;
  data : ndarray
}.

(** [_CONVERTERS] *)
Definition _CONVERTERS : gmap str Converter :=
  list_to_map
    [ (lit "integer", {| cls := IntConverter; nolist := false |});
      (lit "real", {| cls := FloatConverter; nolist := false |});
      (lit "complex", {| cls := ComplexConverter; nolist := false |});
      (lit "logical", {| cls := LogicalConverter; nolist := false |}) ].

(** [len(data)] *)
Definition len (data_ : converted) : result nat :=
  match data_ with
  | CArray a => Ok (array_len a)
  | CItem _ => Raise TypeError
  end.

(** [ft.reduce(lambda x,y: x*y, shape)] *)
Definition reduce_mul (shape_ : list nat) : result nat :=
  match shape_ with
  | x :: rest => Ok (fold_left Nat.mul rest x)
  | [] => Raise TypeError
  end.

(** [np.reshape(data, shape)]: the number of values must be the product of
    the shape (one for the empty shape), else [ValueError]. *)
Definition np_reshape (data_ : converted) (shape_ : list nat) : result ndarray :=
  let flat := match data_ with
              | CArray a => a
              | CItem i => array_of_item i
              end in
  if array_len flat =? fold_right Nat.mul 1 shape_
  then Ok {| nd_shape := shape_; nd_flat := flat |}
  else Raise ValueError.

(** The [try] around the converter call: a [ConversionError] becomes an
    [InvalidEntryError] with the same message, anything else passes. *)
Definition convert_data (conv : Converter) (data_ : pyarg) : result converted :=
  match call conv data_ with
  | Raise (ConversionError msg) => Raise (InvalidEntryError 0 0 msg)
  | r => r
  end.

(** The consistency checks on shape, rank and the number of values. *)
Definition check_shape (shape_ : list nat) (rank_ : nat) (data_ : converted)
    : result unit :=
  match shape_ with
  | _ :: _ =>
      if negb (length shape_ =? rank_)
      then Raise (InvalidEntryError 0 0 (lit "Incompatible rank and shape"))
      else
        n ← len data_;
        p ← reduce_mul shape_;
        if negb (n =? p)
        then Raise (InvalidEntryError 0 0 (lit "Invalid nr. of values"))
        else Ok tt
  | [] =>
      if negb (rank_ =? 0)
      then Raise (InvalidEntryError 0 0 (lit "Incompatible rank and shape"))
      else Ok tt
  end.

(** [TaggedEntry.__init__(self, tagline, data)] *)
Definition TaggedEntry_init (tagline_ : str) (data_ : pyarg) : result TaggedEntry :=
  match Re.match_ _PAT_TAGLINE tagline_ with
  | None => Raise (InvalidEntryError 0 0 (lit "Invalid tag format"))
  | Some m =>
      let name_ := Re.group m "name" in
      let dtype_ := Re.group m "dtype" in
      rank_ ← int_ (Re.group m "rank");
      shape_ ← (if 0 <? rank_
                 then mapM int_ (split_on "," (Re.group m "shape"))
                 else Ok []);
      match _CONVERTERS !! dtype_ with
      | None =>
          Raise (InvalidEntryError 0 0
                   (lit "Invalid data dtype '" ++ dtype_ ++ lit "'"))
      | Some conv =>
          converted_ ← convert_data conv data_;
          _ ← check_shape shape_ rank_ converted_;
          array_ ← np_reshape converted_ shape_;
          Ok {| tagline := strip tagline_; name := name_; dtype := dtype_;
                rank := rank_; shape := shape_; data := array_ |}
      end
  end.

(** [iscomparable] *)
Definition iscomparable (self other : TaggedEntry) : bool :=
  bool_decide (name other = name self) && bool_decide (dtype other = dtype self)
  && bool_decide (rank other = rank self) && bool_decide (shape other = shape self).

(* --------------------------------------------------------------------- *)
(** *** TaggedCollection *)

Record TaggedCollection := {
  _names : gmap str nat;
  _entries : list TaggedEntry
}.

(** One turn of the loop of [extend]. *)
Definition extend1 (self : TaggedCollection) (entry : TaggedEntry) : TaggedCollection :=
  {| _names := <[name entry := size (_names self)]> (_names self);
     _entries := _entries self ++ [entry] |}.

(** [extend(self, entries)] *)
Definition extend (self : TaggedCollection) (entries : list TaggedEntry) : TaggedCollection :=
  fold_left extend1 entries self.

(** [TaggedCollection(entries)] *)
Definition TaggedCollection_init (entries : list TaggedEntry) : TaggedCollection :=
  extend {| _names := ∅; _entries := [] |} entries.

(** [matching_taglines(self, pattern)] *)
Definition matching_taglines (self : TaggedCollection) (pattern : Re.re)
    : list TaggedEntry :=
  filter (fun entry => is_Some (Re.match_ pattern (tagline entry))) (_entries self).

(** [get(self, name)] *)
Definition get (self : TaggedCollection) (name_ : str) : result (option TaggedEntry) :=
  match _names self !! name_ with
  | Some ii =>
      match _entries self !! ii with
      | Some entry => Ok (Some entry)
      | None => Raise IndexError
      end
  | None => Ok None
  end.

(** [remove(self, name)]: the outcome and the collection as the call leaves
    it.  The object has no attribute [_taglines]. *)
Definition remove (self : TaggedCollection) (name_ : str)
    : result unit * TaggedCollection :=
  match _names self !! name_ with
  | Some ii =>
      let popped := {| _names := delete name_ (_names self);
                       _entries := _entries self |} in
      if ii <? length (_entries self)
      then (Raise AttributeError,
            {| _names := _names popped; _entries := delete ii (_entries self) |})
      else (Raise IndexError, popped)
  | None => (Ok tt, self)
  end.

(* --------------------------------------------------------------------- *)
(** *** TaggedReader *)

(** A text file object: the lines still to be read, each as [readline]
    returns it, with its newline.  At the end of the file [readline] returns
    the empty string. *)
Definition stream := list str.

(** The lines of a text, [io.StringIO(text)]. *)
Fixpoint StringIO (text : str) : stream :=
  match text with
  | [] => []
  | c :: text' =>
      if chr_eqb c newline then [c] :: StringIO text'
      else match StringIO text' with
           | line :: lines => (c :: line) :: lines
           | [] => [[c]]
           end
  end.

Record TaggedReader := {
  _fp : stream;
  _lasttagline : str;
  _lasttagline_ind : nat;
  _lastagline_ind : option nat
}.

(** [_readnext_tagline]: the lines read before the next tag line, that tag
    line (empty at the end of the file), and the file object after the
    reads. *)
Fixpoint _readnext_tagline (fp : stream) : list str * str * stream :=
  match fp with
  | [] => ([], [], [])
  | line :: fp' =>
      match line with
      | [] => ([], [], fp')
      | _ =>
          if startswith_at line then ([], line, fp')
          else let '(lines, tagline_, fp'') := _readnext_tagline fp' in
               (line :: lines, tagline_, fp'')
      end
  end.

(** [TaggedReader(source)] for a file-like [source]. *)
Definition TaggedReader_init (source : stream) : TaggedReader :=
  let '(dummy, tagline_, fp) := _readnext_tagline source in
  {| _fp := fp; _lasttagline := tagline_; _lasttagline_ind := length dummy;
     _lastagline_ind := None |}.

(** [__next__]: the outcome and the reader as the call leaves it. *)
Definition next (self : TaggedReader) : result TaggedEntry * TaggedReader :=
  match _lasttagline self with
  | [] => (Raise StopIteration, self)
  | _ =>
      let '(datalines, tagline_, fp) := _readnext_tagline (_fp self) in
      let tagline_ind := _lasttagline_ind self + length datalines in
      let read := {| _fp := fp; _lasttagline := _lasttagline self;
                     _lasttagline_ind := _lasttagline_ind self;
                     _lastagline_ind := _lastagline_ind self |} in
      match TaggedEntry_init (_lasttagline self) (PList datalines) with
      | Raise (InvalidEntryError _ _ msg) =>
          (Raise (InvalidEntryError (_lasttagline_ind self + 1) tagline_ind msg),
           read)
      | Raise e => (Raise e, read)
      | Ok result_ =>
          (Ok result_,
           {| _fp := fp; _lasttagline := tagline_;
              _lasttagline_ind := _lasttagline_ind self;
              _lastagline_ind := Some tagline_ind |})
      end
  end.

(** [for entry in reader]: the entries produced and the exception that ends
    the loop ([StopIteration] for a normal end).  [None] when [fuel] calls of
    [next] were not enough. *)
Fixpoint iterate (fuel : nat) (reader : TaggedReader)
    : option (list TaggedEntry * exn) :=
  match fuel with
  | O => None
  | S fuel' =>
      match next reader with
      | (Ok entry, reader') =>
          '(entries, e) ← iterate fuel' reader'; Some (entry :: entries, e)
      | (Raise e, _) => Some ([], e)
      end
  end.

End Tagged.

(* ===================================================================== *)
(** ** The vocabulary of the specification *)
(* ===================================================================== *)

(** A non-empty run of decimal digits. *)
Definition digits (d : str) : Prop :=
  d <> [] /\ Forall (fun c => isdigit c = true) d.

(** [",".join(fields)] *)
Definition join_comma (fields : list str) : str :=
  match fields with
  | [] => []
  | d :: rest => d ++ concat (map (fun d' => ","%char :: d') rest)
  end.

(** The header lines [_PAT_TAGLINE] lets through, spelled out: [@], a name,
    optional white space, [:], a dtype, [:], ONE digit for the rank, [:], a
    shape that is empty or digit runs separated by commas, and at most one
    final newline.  Nothing ties the shape to the rank. *)
Definition tagline_pattern (s : str) : Prop :=
  exists (name_ ws dtype_ : str) (rank_ : ascii) (fields : list str) (nl : str),
    s = "@"%char :: name_ ++ ws ++ ":"%char :: dtype_
          ++ ":"%char :: rank_ :: ":"%char :: join_comma fields ++ nl
    /\ name_ <> [] /\ Forall (fun c => c <> ":"%char /\ c <> " "%char) name_
    /\ Forall (fun c => isspace c = true) ws
    /\ dtype_ <> [] /\ Forall (fun c => c <> ":"%char) dtype_
    /\ isdigit rank_ = true
    /\ Forall digits fields
    /\ (nl = [] \/ nl = [newline]).

(** The header grammar in the words of the specification:
    [@name:dtype:rank:shape] with a non-empty name free of [:] and space, a
    rank that is a non-negative integer, and a shape of [rank] positive
    integers separated by commas (so empty exactly when the rank is 0). *)
Definition spec_header_of (name_ dtype_ rank_ : str) (fields : list str)
    (s : str) : Prop :=
  s = "@"%char :: name_ ++ ":"%char :: dtype_
        ++ ":"%char :: rank_ ++ ":"%char :: join_comma fields
  /\ name_ <> [] /\ Forall (fun c => c <> ":"%char /\ c <> " "%char) name_
  /\ dtype_ <> [] /\ Forall (fun c => c <> ":"%char) dtype_
  /\ digits rank_
  /\ Forall digits fields
  /\ Forall (fun d => exists n, int_digits d = Some n /\ 0 < n) fields
  /\ int_digits rank_ = Some (length fields).

Definition spec_header (s : str) : Prop :=
  exists name_ dtype_ rank_ fields, spec_header_of name_ dtype_ rank_ fields s.

(** A header line of a file: a line starting with [@]. *)
Definition is_header (line : str) : bool := startswith_at line.

(** The lines of a block after its header: those up to the next header. *)
Fixpoint block_data (lines : list str) : list str :=
  match lines with
  | [] => []
  | line :: rest => if is_header line then [] else line :: block_data rest
  end.

(** The blocks of a file, in file order: each header line with the lines
    that follow it up to the next header.  Lines before the first header
    belong to no block. *)
Fixpoint blocks (lines : list str) : list (str * list str) :=
  match lines with
  | [] => []
  | line :: rest =>
      if is_header line then (line, block_data rest) :: blocks rest
      else blocks rest
  end.

(** What [next] makes of the construction of an entry from a header kept at
    index [ind] and [datalines]: the entry, or the error with its line
    numbers filled in. *)
Definition surfaced `{Numpy} (ind : nat) (header : str) (datalines : list str)
    : result TaggedEntry :=
  match TaggedEntry_init header (PList datalines) with
  | Raise (InvalidEntryError _ _ msg) =>
      Raise (InvalidEntryError (ind + 1) (ind + length datalines) msg)
  | r => r
  end.

(** An error other than the one of the grammar check. *)
Definition past_grammar (e : exn) : Prop :=
  e <> InvalidEntryError 0 0 (lit "Invalid tag format").

(** A conversion message: none starts with the letter I. *)
Definition conversion_msg (e : exn) : Prop :=
  exists c msg, e = ConversionError (c :: msg) /\ c <> "I"%char.

(** The blocks a reader has still to produce: the one of the buffered
    header, then those of the rest of the file. *)
Definition pending `{Numpy} (reader : TaggedReader) : list (str * list str) :=
  match _lasttagline reader with
  | [] => []
  | header => (header, block_data (_fp reader)) :: blocks (_fp reader)
  end.

(** A block from which an entry can be constructed, and the entry. *)
Definition builds `{Numpy} (entry : TaggedEntry) (block : str * list str) : Prop :=
  TaggedEntry_init block.1 (PList block.2) = Ok entry.

Definition valid_block `{Numpy} (block : str * list str) : Prop :=
  exists entry, builds entry block.

(* ===================================================================== *)
(** ** Sample data for the worked examples *)
(* ===================================================================== *)

Module Sample.

#[local] Existing Instance Literal.carriers.
#[local] Existing Instance Literal.numpy.

(** One line of a text file. *)
Definition line (s : string) : str := lit s ++ [newline].

(** A real scalar entry as the constructor builds it. *)
Definition scalar (header name_ value : string) : TaggedEntry :=
  {| tagline := lit header; name := lit name_; dtype := lit "real";
     rank := 0; shape := [];
     data := {| nd_shape := []; nd_flat := AFloat [lit value] |} |}.

Definition x1 : TaggedEntry := scalar "@x:real:0:" "x" "1".
Definition x2 : TaggedEntry := scalar "@x:real:0:" "x" "2".
Definition y : TaggedEntry := scalar "@y:real:0:" "y" "3".
Definition x3 : TaggedEntry := scalar "@x:real:0:" "x" "4".

(** Two entries; the second declares two values and holds one. *)
Definition second_malformed : str :=
  line "@a:logical:0:" ++ line " T" ++ line "@b:logical:1:2" ++ line " F".

(** A scalar header followed by two values. *)
Definition scalar_two_values : str :=
  line "@a:logical:0:" ++ line " T F".

(** A complex scalar. *)
Definition complex_scalar : str :=
  line "@z:complex:0:" ++ line " 0.1E+001 -0.2E+001".

(** Prose, then three well-formed entries. *)
Definition three_entries : str :=
  line "some prose" ++
  line "@a:real:0:" ++ line " 0.5E+003" ++
  line "@m:logical:1:2" ++ line " T F" ++
  line "@b:integer:2:2,2" ++ line "1 2" ++ line "3 4".

(** A failing first block followed by a second block. *)
Definition first_malformed : str :=
  line "@a:real:1:2" ++ line "1.0" ++ line "@b:real:0:" ++ line "2.0 3.0"
  ++ line "@c:real:0:" ++ line "4.0".

(** A header of the specification's grammar with a rank of two digits. *)
Definition rank_ten : str := lit "@a:real:10:1,1,1,1,1,1,1,1,1,1".

(** Headers outside the specification's grammar: a shape with rank 0, a
    dimension that is not positive, fewer dimensions than the rank, a space
    after the name, and a final newline. *)
Definition scalar_with_shape : str := lit "@a:logical:0:5".
Definition zero_dimension : str := lit "@a:logical:1:0".
Definition short_shape : str := lit "@a:logical:2:3".
Definition spaced_name : str := lit "@a :logical:0:".
Definition with_newline : str := line "@a:logical:0:".

End Sample.

(* ===================================================================== *)
(** ** Matching with groups *)
(* ===================================================================== *)

Module ReGroups.
Import Re.

(** [captured inp r s c s' c']: [r] can consume the part of [s] in front of
    [s'], turning the groups [c] into [c']; a group records the text it
    consumed, later groups in front. *)
Inductive captured (inp : str) : re -> str -> captures -> str -> captures -> Prop :=
| C_Eps s c : captured inp Eps s c s c
| C_Chr p a s c : p a = true -> captured inp (Chr p) (a :: s) c s c
| C_Cat r1 r2 s c s1 c1 s2 c2 :
    captured inp r1 s c s1 c1 -> captured inp r2 s1 c1 s2 c2 ->
    captured inp (Cat r1 r2) s c s2 c2
| C_AltL r1 r2 s c s1 c1 :
    captured inp r1 s c s1 c1 -> captured inp (Alt r1 r2) s c s1 c1
| C_AltR r1 r2 s c s1 c1 :
    captured inp r2 s c s1 c1 -> captured inp (Alt r1 r2) s c s1 c1
| C_StarNil r s c : captured inp (Star r) s c s c
| C_StarCons r s c s1 c1 s2 c2 :
    captured inp r s c s1 c1 -> length s1 < length s ->
    captured inp (Star r) s1 c1 s2 c2 -> captured inp (Star r) s c s2 c2
| C_Grp g r s c s1 c1 :
    captured inp r s c s1 c1 ->
    captured inp (Grp g r) s c s1 ((g, take (length s - length s1) s) :: c1)
| C_Bos s c : length s = length inp -> captured inp Bos s c s c
| C_Eos s c : s = [] \/ s = [newline] -> captured inp Eos s c s c.

(** A pattern without groups. *)
Fixpoint no_group (r : re) : bool :=
  match r with
  | Eps | Chr _ | Bos | Eos => true
  | Cat r1 r2 | Alt r1 r2 => no_group r1 && no_group r2
  | Star r1 => no_group r1
  | Grp _ _ => false
  end.

End ReGroups.

(** The number a run of digits denotes. *)
Definition digits_value (d : str) : nat :=
  fold_left (fun acc c => 10 * acc + digit_val c) d 0.

(** The four dtype names. *)
Definition known_dtype (d : str) : Prop :=
  d = lit "integer" \/ d = lit "real" \/ d = lit "complex" \/ d = lit "logical".

(** The header made of its fields, without and with a final newline. *)
Definition header_text (name_ dtype_ : str) (rank_ : ascii) (fields : list str) : str :=
  "@"%char :: name_ ++ ":"%char :: dtype_
    ++ ":"%char :: rank_ :: ":"%char :: join_comma fields.

(** What the fields of a header must be for [header_text] to be a header
    with these fields: a name without [:] or white space, a dtype without
    [:], one digit for the rank, runs of digits for the shape. *)
Definition header_fields (name_ dtype_ : str) (rank_ : ascii) (fields : list str) : Prop :=
  name_ <> [] /\ Forall (fun c => c <> ":"%char /\ isspace c = false) name_
  /\ dtype_ <> [] /\ Forall (fun c => c <> ":"%char) dtype_
  /\ isdigit rank_ = true
  /\ Forall digits fields.

(* --------------------------------------------------------------------- *)
(** *** The iterator of a collection *)

(** [l[i]] for a Python integer [i]: a negative index counts from the
    end. *)
Definition getitem {A} (l : list A) (i : Z) : result A :=
  let n := Z.of_nat (length l) in
  let j := if (i <? 0)%Z then (n + i)%Z else i in
  if (j <? 0)%Z then Raise IndexError
  else match l !! Z.to_nat j with
       | Some x => Ok x
       | None => Raise IndexError
       end.

Section CollectionIter.
Context `{Numpy}.

(** [TaggedCollectionIter]: the iterator keeps a reference to the
    collection and a counter [ind], which starts at -1.  [__next__] reads the
    collection as it is at the call. *)
Definition TaggedCollectionIter_init : Z := (-1)%Z.

Definition TaggedCollectionIter_next (tagged : TaggedCollection) (ind : Z)
    : result TaggedEntry * Z :=
  let ind' := (ind + 1)%Z in
  if (ind' <? Z.of_nat (length (_entries tagged)))%Z
  then (getitem (_entries tagged) ind', ind')
  else (Raise StopIteration, ind').

(** [for entry in tagged], the collection not being modified meanwhile. *)
Fixpoint traverse (fuel : nat) (tagged : TaggedCollection) (ind : Z)
    : option (list TaggedEntry * exn) :=
  match fuel with
  | O => None
  | S fuel' =>
      match TaggedCollectionIter_next tagged ind with
      | (Ok entry, ind') =>
          '(entries, e) ← traverse fuel' tagged ind'; Some (entry :: entries, e)
      | (Raise e, _) => Some ([], e)
      end
  end.

(** A collection whose index is in step with its sequence: as many names as
    entries, and each name leading to the position of the entry that bears
    it. *)
Definition in_step (self : TaggedCollection) : Prop :=
  size (_names self) = length (_entries self)
  /\ forall name_ i,
       _names self !! name_ = Some i <->
       exists entry, _entries self !! i = Some entry /\ name entry = name_.

(** [TaggedCollection(reader)]: [extend] draws entries from the reader until
    it raises; [StopIteration] ends the loop, any other exception leaves the
    constructor. *)
Definition TaggedCollection_of_reader (fuel : nat) (reader : TaggedReader)
    : option (result TaggedCollection) :=
  '(entries, e) ← iterate fuel reader;
  Some (match e with
        | StopIteration => Ok (TaggedCollection_init entries)
        | _ => Raise e
        end).

End CollectionIter.

(* --------------------------------------------------------------------- *)
(** *** Vocabulary for the converters *)

(** The truth value a token stands for. *)
Definition logical_value (tok : str) : option bool :=
  if decide (tok = lit "T" \/ tok = lit "t") then Some true
  else if decide (tok = lit "F" \/ tok = lit "f") then Some false
  else None.

(** Consecutive (real part, imaginary part) pairs. *)
Fixpoint pairs `{Numpy} (tmp : list real) : list complex :=
  match tmp with
  | re :: im :: rest => make_complex re im :: pairs rest
  | _ => []
  end.

(** A line that ends with a white space character, as a line read from a
    file ends with its newline. *)
Definition ends_blank (line : str) : Prop :=
  exists front c, line = front ++ [c] /\ isspace c = true.

(* ===================================================================== *)
(** ** [valsimp/io/noncommlines.py] *)
(* ===================================================================== *)

Module NonComm.

(** [s.startswith(sep)] *)
Fixpoint startswith (sep s : str) : bool :=
  match sep, s with
  | [], _ => true
  | a :: sep', b :: s' => chr_eqb a b && startswith sep' s'
  | _ :: _, [] => false
  end.

(** [s.split(sep, 1)[0]] for a non-empty [sep]: the text in front of the
    first occurrence of [sep], or all of [s]. *)
Fixpoint before (sep s : str) : str :=
  match s with
  | [] => []
  | c :: s' => if startswith sep s then [] else c :: before sep s'
  end.

(** [not words[0].strip()] *)
Definition blank (w : str) : bool :=
  match strip w with
  | [] => true
  | _ => false
  end.

(** [NonCommentLines.__next__]: the outcome and the file object after the
    reads.  An empty separator makes [split] raise [ValueError]. *)
Fixpoint next (comment : str) (fp : list str) : result str * list str :=
  match fp with
  | [] => (Raise StopIteration, [])
  | line :: fp' =>
      match line with
      | [] => (Raise StopIteration, fp')
      | _ =>
          match comment with
          | [] => (Raise ValueError, fp')
          | _ =>
              let word := before comment line in
              if blank word then next comment fp' else (Ok word, fp')
          end
      end
  end.

(** [for line in NonCommentLines(fp, comment)] *)
Fixpoint collect (fuel : nat) (comment : str) (fp : list str)
    : option (list str * exn) :=
  match fuel with
  | O => None
  | S fuel' =>
      match next comment fp with
      | (Ok word, fp') =>
          '(words, e) ← collect fuel' comment fp'; Some (word :: words, e)
      | (Raise e, _) => Some ([], e)
      end
  end.

End NonComm.

(* ===================================================================== *)
(** ** [valsimp/io/logger.py] *)
(* ===================================================================== *)

Module Logger.

Definition INDENTWIDTH : Z := 2.
Definition LINEWIDTH : Z := 80.

(** [" " * n] *)
Definition spaces (n : Z) : str := replicate (Z.to_nat n) " "%char.

(** A [TestLogger]; [fp] is the text written to the log so far. *)
Record TestLogger := {
  fp : str;
  _indentlevel : Z;
  _indentwidth : Z;
  _indent : str
}.

Definition _setindent (self : TestLogger) : TestLogger :=
  let width := (_indentlevel self * INDENTWIDTH)%Z in
  {| fp := fp self; _indentlevel := _indentlevel self;
     _indentwidth := width; _indent := spaces width |}.

(** [TestLogger(fp)] *)
Definition init (out : str) : TestLogger :=
  _setindent {| fp := out; _indentlevel := 0; _indentwidth := 0; _indent := [] |}.

Definition increaseindent (self : TestLogger) : TestLogger :=
  _setindent {| fp := fp self; _indentlevel := (_indentlevel self + 1)%Z;
                _indentwidth := _indentwidth self; _indent := _indent self |}.

Definition decreaseindent (self : TestLogger) : TestLogger :=
  if (_indentlevel self =? 0)%Z then self
  else _setindent {| fp := fp self; _indentlevel := (_indentlevel self - 1)%Z;
                     _indentwidth := _indentwidth self; _indent := _indent self |}.

(** The room [ll] that [_breakline] leaves for the text of a line; a width
    of 0 counts as no width. *)
Definition room (self : TestLogger) (width : option Z) : Z :=
  match width with
  | Some w => if (w =? 0)%Z then (LINEWIDTH - _indentwidth self)%Z
              else (w - _indentwidth self)%Z
  | None => (LINEWIDTH - _indentwidth self)%Z
  end.

(** [range(0, stop, step)] for a positive [step] *)
Definition range0 (stop step : nat) : list nat :=
  map (fun k => k * step) (seq 0 ((stop + step - 1) / step)).

(** [_breakline]: [range] raises on a step of 0 and is empty for a negative
    step. *)
Definition _breakline (self : TestLogger) (line : str) (width : option Z)
    : result (list str) :=
  let ll := room self width in
  if (ll =? 0)%Z then Raise ValueError
  else if (ll <? 0)%Z then Ok []
  else Ok (map (fun ii => take (Z.to_nat ll) (drop ii line))
               (range0 (length line) (Z.to_nat ll))).

(** The three writes of [writeline] for one line. *)
Definition write1 (self : TestLogger) (curline : str) : TestLogger :=
  {| fp := fp self ++ _indent self ++ curline ++ [newline];
     _indentlevel := _indentlevel self; _indentwidth := _indentwidth self;
     _indent := _indent self |}.

(** [writeline(line, breakline)]: the outcome and the logger after it. *)
Definition writeline (self : TestLogger) (line : str) (breakline : bool)
    : result unit * TestLogger :=
  match (if breakline then _breakline self line None else Ok [line]) with
  | Ok lines => (Ok tt, fold_left write1 lines self)
  | Raise e => (Raise e, self)
  end.

(** [writelines(lines, breakline)] *)
Fixpoint writelines (self : TestLogger) (lines : list str) (breakline : bool)
    : result unit * TestLogger :=
  match lines with
  | [] => (Ok tt, self)
  | line :: rest =>
      match writeline self line breakline with
      | (Ok _, self') => writelines self' rest breakline
      | (Raise e, self') => (Raise e, self')
      end
  end.

(** [write(txt, breakline)] *)
Definition write (self : TestLogger) (txt : str) (breakline : bool)
    : result unit * TestLogger :=
  writelines self (split_on newline txt) breakline.

(** A call of [increaseindent] or [decreaseindent]. *)
Inductive indent_op : Type := Increase | Decrease.

Definition apply_op (self : TestLogger) (op : indent_op) : TestLogger :=
  match op with
  | Increase => increaseindent self
  | Decrease => decreaseindent self
  end.

(** What every logger reached from a new one satisfies. *)
Definition indent_ok (out : str) (self : TestLogger) : Prop :=
  (0 <= _indentlevel self)%Z
  /\ _indentwidth self = (2 * _indentlevel self)%Z
  /\ _indent self = spaces (_indentwidth self)
  /\ length (_indent self) = Z.to_nat (_indentwidth self)
  /\ fp self = out.

End Logger.

(* EXTRA DEFINITIONS *)

(* ===================================================================== *)
(** * Properties *)
(* ===================================================================== *)

(** ** The matcher finds a match exactly when there is one *)

Module ReFacts.
Import Re.

Section Matcher.
Variable inp : str.

Lemma star_loop_sound {A} (r : re) (k : str -> captures -> option A) (x : A) :
  (forall s caps k', run inp r s caps k' = Some x ->
     exists s1 c1, matches inp r s s1 /\ k' s1 c1 = Some x) ->
  forall fuel s caps,
    star_loop (run inp r) k fuel s caps = Some x ->
    exists s2 c2, matches inp (Star r) s s2 /\ k s2 c2 = Some x.
Proof.
  intros Hbody fuel.
  induction fuel as [|fuel IH]; intros s caps Hrun; simpl in Hrun.
  - exists s, caps. split; [constructor | exact Hrun].
  - destruct (run inp r s caps _) as [y|] eqn:Hb.
    + injection Hrun as Hy. subst y.
      destruct (Hbody _ _ _ Hb) as (s1 & c1 & Hm & Hk).
      simpl in Hk.
      destruct (length s1 <? length s) eqn:Hlt; [|discriminate].
      apply Nat.ltb_lt in Hlt.
      apply IH in Hk as (s2 & c2 & Hstar & Hk).
      exists s2, c2. split; [|exact Hk].
      eapply M_StarCons; eassumption.
    + exists s, caps. split; [constructor | exact Hrun].
Qed.

Lemma run_sound {A} (r : re) :
  forall s caps (k : str -> captures -> option A) x,
    run inp r s caps k = Some x ->
    exists s1 c1, matches inp r s s1 /\ k s1 c1 = Some x.
Proof.
  induction r as [|p|r1 IH1 r2 IH2|r1 IH1 r2 IH2|r IH|g r IH| |];
    intros s caps k x Hrun; simpl in Hrun.
  - exists s, caps. split; [constructor | exact Hrun].
  - destruct s as [|c s]; [discriminate|].
    destruct (p c) eqn:Hp; [|discriminate].
    exists s, caps. split; [by constructor | exact Hrun].
  - apply IH1 in Hrun as (s1 & c1 & Hm1 & Hrun).
    apply IH2 in Hrun as (s2 & c2 & Hm2 & Hk).
    exists s2, c2. split; [econstructor; eassumption | exact Hk].
  - destruct (run inp r1 s caps k) as [y|] eqn:H1.
    + injection Hrun as ->.
      apply IH1 in H1 as (s1 & c1 & Hm & Hk).
      exists s1, c1. split; [by apply M_AltL | exact Hk].
    + apply IH2 in Hrun as (s1 & c1 & Hm & Hk).
      exists s1, c1. split; [by apply M_AltR | exact Hk].
  - eapply star_loop_sound; [|exact Hrun].
    intros s' caps' k' Hb. exact (IH _ _ _ _ Hb).
  - apply IH in Hrun as (s1 & c1 & Hm & Hk).
    eexists s1, _. split; [by constructor | exact Hk].
  - destruct (length s =? length inp) eqn:Hlen; [|discriminate].
    apply Nat.eqb_eq in Hlen.
    exists s, caps. split; [by constructor | exact Hrun].
  - destruct s as [|c [|c' s]]; [| |discriminate].
    + exists [], caps. split; [constructor; by left | exact Hrun].
    + destruct (chr_eqb c newline) eqn:Hc; [|discriminate].
      apply Ascii.eqb_eq in Hc as ->.
      exists [newline], caps. split; [constructor; by right | exact Hrun].
Qed.

Lemma run_complete {A} (r : re) :
  forall s s1 caps (k : str -> captures -> option A),
    matches inp r s s1 ->
    (forall c, is_Some (k s1 c)) ->
    is_Some (run inp r s caps k).
Proof.
  induction r as [|p|r1 IH1 r2 IH2|r1 IH1 r2 IH2|r IH|g r IH| |];
    intros s s1 caps k Hm Hk.
  - inversion Hm; subst. apply Hk.
  - inversion Hm as [|p' c s' Hp| | | | | | | |]; subst. simpl. rewrite Hp. apply Hk.
  - inversion Hm as [| |? ? ? s' ? Hm1 Hm2| | | | | | |]; subst. simpl.
    eapply IH1; [exact Hm1|].
    intros c. eapply IH2; [exact Hm2 | exact Hk].
  - simpl. inversion Hm; subst.
    + destruct (run inp r1 s caps k) eqn:E; [done|].
      assert (is_Some (run inp r1 s caps k)) as [? Hs] by (eapply IH1; eauto).
      congruence.
    + destruct (run inp r1 s caps k) eqn:E; [done|]. eapply IH2; eauto.
  - simpl.
    assert (forall fuel, length s <= fuel ->
              forall caps, is_Some (star_loop (run inp r) k fuel s caps)) as Hloop.
    { clear caps. remember (Star r) as sr eqn:Heq.
      induction Hm as [| | | | |r' s|r' s s' s2 Hm1 _ Hlt Hm2 IHstar| | |];
        try discriminate; injection Heq as ->; intros fuel Hfuel caps.
      - destruct fuel; simpl; [apply Hk|].
        destruct (run inp r s caps _); [done | apply Hk].
      - destruct fuel as [|fuel]; [lia|]. simpl.
        destruct (run inp r s caps _) eqn:E; [done|].
        assert (is_Some (run inp r s caps
                  (fun s1 c1 => if length s1 <? length s
                                then star_loop (run inp r) k fuel s1 c1
                                else None))) as [? Hs].
        { eapply IH; [exact Hm1|]. intros c.
          assert ((length s' <? length s) = true) as -> by (apply Nat.ltb_lt; lia).
          apply IHstar; [done | done | lia]. }
        congruence. }
    by apply Hloop.
  - inversion Hm; subst. simpl. eapply IH; [eassumption|]. intros c. apply Hk.
  - inversion Hm as [| | | | | | | |? Hlen|]; subst. simpl.
    rewrite Hlen, Nat.eqb_refl. apply Hk.
  - inversion Hm as [| | | | | | | | |? [Hs|Hs]]; subst; simpl; [apply Hk|].
    apply Hk.
Qed.

(** *** What each construct matches *)

Lemma matches_Eps s s' : matches inp Eps s s' <-> s = s'.
Proof. split; [by inversion 1 | intros ->; constructor]. Qed.

Lemma matches_Chr p s s' :
  matches inp (Chr p) s s' <-> exists c, s = c :: s' /\ p c = true.
Proof.
  split.
  - inversion 1; subst. eauto.
  - intros (c & -> & Hp). by constructor.
Qed.

Lemma matches_Lit c s s' : matches inp (Lit c) s s' <-> s = c :: s'.
Proof.
  unfold Lit. rewrite matches_Chr. split.
  - intros (c' & -> & Hc). by apply Ascii.eqb_eq in Hc as ->.
  - intros ->. exists c. split; [done | apply Ascii.eqb_refl].
Qed.

Lemma matches_Cat r1 r2 s s' :
  matches inp (Cat r1 r2) s s' <->
  exists s1, matches inp r1 s s1 /\ matches inp r2 s1 s'.
Proof.
  split.
  - inversion 1; subst. eauto.
  - intros (s1 & H1 & H2). econstructor; eassumption.
Qed.

Lemma matches_Alt r1 r2 s s' :
  matches inp (Alt r1 r2) s s' <-> matches inp r1 s s' \/ matches inp r2 s s'.
Proof.
  split.
  - inversion 1; subst; eauto.
  - intros [H1|H2]; [by apply M_AltL | by apply M_AltR].
Qed.

Lemma matches_Opt r s s' :
  matches inp (Opt r) s s' <-> matches inp r s s' \/ s = s'.
Proof. unfold Opt. by rewrite matches_Alt, matches_Eps. Qed.

Lemma matches_Grp g r s s' : matches inp (Grp g r) s s' <-> matches inp r s s'.
Proof. split; [by inversion 1 | by constructor]. Qed.

Lemma matches_Bos s s' :
  matches inp Bos s s' <-> s = s' /\ length s = length inp.
Proof. split; [by inversion 1 | intros [-> Hl]; by constructor]. Qed.

Lemma matches_Eos s s' :
  matches inp Eos s s' <-> s = s' /\ (s = [] \/ s = [newline]).
Proof. split; [by inversion 1 | intros [-> Hl]; by constructor]. Qed.

(** Whatever a pattern consumes is a prefix of what it was given. *)
Lemma matches_suffix r s s' : matches inp r s s' -> exists w, s = w ++ s'.
Proof.
  induction 1 as [s|p c s|r1 r2 s s1 s2 _ [w1 ->] _ [w2 ->]|? ? ? ? _ IH
                 |? ? ? ? _ IH|r s|r s s1 s2 _ [w1 ->] _ _ [w2 ->]
                 |? ? ? ? _ IH|s|s].
  - by exists [].
  - by exists [c].
  - exists (w1 ++ w2). by rewrite <- app_assoc.
  - exact IH.
  - exact IH.
  - by exists [].
  - exists (w1 ++ w2). by rewrite <- app_assoc.
  - exact IH.
  - by exists [].
  - by exists [].
Qed.

(** [r*] in terms of its iterations, when an iteration cannot be empty. *)
Lemma matches_Star r (P : str -> Prop) :
  (forall s s', matches inp r s s' <-> exists w, s = w ++ s' /\ P w) ->
  (forall w, P w -> w <> []) ->
  forall s s',
    matches inp (Star r) s s' <->
    exists ws, s = concat ws ++ s' /\ Forall P ws.
Proof.
  intros Hr Hne s s'. split.
  - intros Hm. remember (Star r) as sr eqn:Heq.
    induction Hm as [| | | | |r' s|r' s s1 s2 Hm1 _ Hlt Hm2 IH| | |];
      try discriminate; injection Heq as ->.
    + by exists [].
    + destruct (IH eq_refl) as (ws & -> & Hws).
      apply Hr in Hm1 as (w & -> & Hw).
      exists (w :: ws). split; [simpl; by rewrite app_assoc | by constructor].
  - intros (ws & -> & Hws). induction Hws as [|w ws Hw Hws IH]; [constructor|].
    simpl. rewrite <- app_assoc.
    apply M_StarCons with (s1 := concat ws ++ s').
    + apply Hr. exists w. by split.
    + rewrite (length_app w). specialize (Hne w Hw). destruct w; [done | simpl; lia].
    + exact IH.
Qed.

(** A repeated character class consumes a run of characters of the class. *)
Lemma matches_Star_Chr p s s' :
  matches inp (Star (Chr p)) s s' <->
  exists w, s = w ++ s' /\ Forall (fun c => p c = true) w.
Proof.
  rewrite (matches_Star (Chr p) (fun w => exists c, w = [c] /\ p c = true)).
  - split.
    + intros (ws & -> & Hws). exists (concat ws). split; [done|].
      induction Hws as [|w ws (c & -> & Hc) _ IH]; [constructor|].
      simpl. by constructor.
    + intros (w & -> & Hw). exists (map (fun c => [c]) w). split.
      * f_equal. clear Hw. induction w as [|c w IH]; [done|]. simpl. by f_equal.
      * induction Hw as [|c w Hc _ IH]; [constructor|]. constructor; eauto.
  - intros t t'. rewrite matches_Chr. split.
    + intros (c & -> & Hc). exists [c]. eauto.
    + intros (w & -> & c & -> & Hc). eauto.
  - by intros w (c & -> & _).
Qed.

Lemma matches_Plus_Chr p s s' :
  matches inp (Plus (Chr p)) s s' <->
  exists w, s = w ++ s' /\ w <> [] /\ Forall (fun c => p c = true) w.
Proof.
  unfold Plus. rewrite matches_Cat. split.
  - intros (s1 & H1 & H2).
    apply matches_Chr in H1 as (c & -> & Hc).
    apply matches_Star_Chr in H2 as (w & -> & Hw).
    exists (c :: w). split_and!; [done | done | by constructor].
  - intros (w & -> & Hne & Hw). destruct Hw as [|c w Hc Hw]; [done|].
    exists (w ++ s'). split.
    + apply matches_Chr. eauto.
    + apply matches_Star_Chr. eauto.
Qed.

End Matcher.

(** [pattern.match(s)] returns a match object exactly when the pattern
    matches at offset 0. *)
Lemma match_iff (pattern : re) (s : str) :
  is_Some (match_ pattern s) <-> matches_at_start pattern s.
Proof.
  unfold match_, matches_at_start. split.
  - intros [caps Hrun]. apply run_sound in Hrun as (s1 & c1 & Hm & _). eauto.
  - intros [rest Hm]. eapply run_complete; [exact Hm|]. intros c. by eexists.
Qed.

Lemma match_None (pattern : re) (s : str) :
  match_ pattern s = None <-> ~ matches_at_start pattern s.
Proof.
  rewrite <- match_iff. destruct (match_ pattern s) as [m|]; split; intros Hx.
  - discriminate.
  - exfalso. apply Hx. by exists m.
  - by intros [m Hm].
  - reflexivity.
Qed.

End ReFacts.

(* ===================================================================== *)
(** ** What [_PAT_TAGLINE] lets through *)
(* ===================================================================== *)

Section TaglinePattern.
Import Re ReFacts.

Lemma noneof_colon_space c :
  negb (existsb (chr_eqb c) [":"; " "]%char) = true <->
  c <> ":"%char /\ c <> " "%char.
Proof.
  simpl. unfold chr_eqb.
  destruct (Ascii.eqb_spec c ":"), (Ascii.eqb_spec c " "); simpl;
    split; try tauto; try congruence; intros [? ?]; congruence.
Qed.

Lemma noneof_colon c :
  negb (existsb (chr_eqb c) [":"]%char) = true <-> c <> ":"%char.
Proof.
  simpl. unfold chr_eqb.
  destruct (Ascii.eqb_spec c ":"); simpl; split; try tauto; congruence.
Qed.

(** The shape group: nothing, or digit runs separated by commas. *)
Lemma matches_shape inp s s' :
  matches inp (Opt (Cat (Plus Digit) (Star (Cat (Lit ",") (Plus Digit))))) s s'
  <-> exists fields, s = join_comma fields ++ s' /\ Forall digits fields.
Proof.
  assert (forall t t',
            matches inp (Cat (Lit ",") (Plus Digit)) t t' <->
            exists w, t = w ++ t' /\ (exists d, w = ","%char :: d /\ digits d))
    as Hfield.
  { intros t t'. rewrite matches_Cat. split.
    - intros (t1 & H1 & H2). apply matches_Lit in H1 as ->.
      apply matches_Plus_Chr in H2 as (d & -> & Hne & Hd).
      exists (","%char :: d). split; [done|]. exists d. by repeat split.
    - intros (w & -> & d & -> & Hne & Hd). exists (d ++ t'). split.
      + by apply matches_Lit.
      + apply matches_Plus_Chr. by exists d. }
  rewrite matches_Opt, matches_Cat. split.
  - intros [(s1 & H1 & H2)| ->].
    + apply matches_Plus_Chr in H1 as (d & -> & Hne & Hd).
      apply (matches_Star inp _ _ Hfield) in H2 as (ws & -> & Hws);
        [|by intros w (d' & -> & _)].
      assert (exists rest, ws = map (fun d' => ","%char :: d') rest
                           /\ Forall digits rest) as (rest & -> & Hrest).
      { clear -Hws. induction Hws as [|w ws (d' & -> & Hd') _ (rest & -> & Hr)].
        - by exists [].
        - exists (d' :: rest). split; [done | by constructor]. }
      exists (d :: rest). split; [simpl; by rewrite <- app_assoc|].
      constructor; [by split | done].
    + by exists [].
  - intros (fields & -> & Hf). destruct Hf as [|d rest [Hne Hd] Hrest]; [by right|].
    left. exists (concat (map (fun d' => ","%char :: d') rest) ++ s'). split.
    + apply matches_Plus_Chr. exists d. simpl. by rewrite <- app_assoc.
    + apply (matches_Star inp _ _ Hfield); [by intros w (d' & -> & _)|].
      eexists. split; [done|].
      clear -Hrest. induction Hrest as [|d' rest Hd' _ IH]; [constructor|].
      simpl. constructor; [by exists d' | exact IH].
Qed.

(** The pattern matches a line exactly when the line has the spelled-out
    form. *)
Lemma PAT_TAGLINE_matches (s : str) :
  matches_at_start _PAT_TAGLINE s <-> tagline_pattern s.
Proof.
  unfold matches_at_start, tagline_pattern, _PAT_TAGLINE. split.
  - intros (rest & Hm).
    apply matches_Cat in Hm as (s0 & H0 & Hm). apply matches_Bos in H0 as [<- _].
    apply matches_Cat in Hm as (s1 & H1 & Hm). apply matches_Lit in H1.
    apply matches_Cat in Hm as (s2 & H2 & Hm).
    apply matches_Grp, matches_Plus_Chr in H2 as (name_ & -> & Hn1 & Hn2).
    apply matches_Cat in Hm as (s3 & H3 & Hm).
    apply matches_Star_Chr in H3 as (ws & -> & Hws).
    apply matches_Cat in Hm as (s4 & H4 & Hm). apply matches_Lit in H4 as ->.
    apply matches_Cat in Hm as (s5 & H5 & Hm).
    apply matches_Grp, matches_Plus_Chr in H5 as (dtype_ & -> & Hd1 & Hd2).
    apply matches_Cat in Hm as (s6 & H6 & Hm). apply matches_Lit in H6 as ->.
    apply matches_Cat in Hm as (s7 & H7 & Hm).
    apply matches_Grp, matches_Chr in H7 as (rank_ & -> & Hr).
    apply matches_Cat in Hm as (s8 & H8 & Hm). apply matches_Lit in H8 as ->.
    apply matches_Cat in Hm as (s9 & H9 & Hm).
    apply matches_Grp, matches_shape in H9 as (fields & -> & Hf).
    apply matches_Eos in Hm as [-> Hnl].
    exists name_, ws, dtype_, rank_, fields, rest. subst s.
    split_and!; try done.
    + eapply Forall_impl; [exact Hn2|]. intros c. apply noneof_colon_space.
    + eapply Forall_impl; [exact Hd2|]. intros c. apply noneof_colon.
  - intros (name_ & ws & dtype_ & rank_ & fields & nl & -> & Hn1 & Hn2 & Hws
            & Hd1 & Hd2 & Hr & Hf & Hnl).
    exists nl.
    apply matches_Cat. eexists. split; [by apply matches_Bos|].
    apply matches_Cat. eexists. split; [by apply matches_Lit|].
    apply matches_Cat. eexists. split.
    { apply matches_Grp, matches_Plus_Chr. exists name_. split_and!; try done.
      eapply Forall_impl; [exact Hn2|]. intros c. apply noneof_colon_space. }
    apply matches_Cat. eexists. split.
    { apply matches_Star_Chr. by exists ws. }
    apply matches_Cat. eexists. split; [by apply matches_Lit|].
    apply matches_Cat. eexists. split.
    { apply matches_Grp, matches_Plus_Chr. exists dtype_. split_and!; try done.
      eapply Forall_impl; [exact Hd2|]. intros c. apply noneof_colon. }
    apply matches_Cat. eexists. split; [by apply matches_Lit|].
    apply matches_Cat. eexists. split.
    { apply matches_Grp, matches_Chr. by exists rank_. }
    apply matches_Cat. eexists. split; [by apply matches_Lit|].
    apply matches_Cat. eexists. split.
    { apply matches_Grp, matches_shape. by exists fields. }
    by apply matches_Eos.
Qed.

End TaglinePattern.

(* ===================================================================== *)
(** ** Which errors each step of the construction can raise *)
(* ===================================================================== *)

Section Errors.
Context `{Numpy}.

Ltac bad_letter := eexists _, _; split; [reflexivity | discriminate].

Lemma bind_Raise {A B} (r : result A) (k : A -> result B) (e : exn) :
  (x ← r; k x) = Raise e ->
  r = Raise e \/ exists a, r = Ok a /\ k a = Raise e.
Proof. destruct r as [a|e']; simpl; [eauto | intros [= <-]; by left]. Qed.

Lemma bind_Ok {A B} (r : result A) (k : A -> result B) (b : B) :
  (x ← r; k x) = Ok b -> exists a, r = Ok a /\ k a = Ok b.
Proof. destruct r as [a|e']; simpl; [eauto | discriminate]. Qed.

Lemma mapM_int_raises (fields : list str) (e : exn) :
  mapM int_ fields = Raise e -> e = ValueError.
Proof.
  revert e. induction fields as [|d fields IH]; intros e; [discriminate|].
  change (mapM int_ (d :: fields))
    with (y ← int_ d; k ← mapM int_ fields; mret (y :: k)).
  destruct (int_ d) as [n|e1] eqn:Ed.
  - destruct (mapM int_ fields) as [l|e'] eqn:E; [discriminate|].
    intros [= <-]. by apply IH.
  - unfold int_ in Ed. destruct (int_digits d); [discriminate|].
    injection Ed as <-. by intros [= <-].
Qed.

Lemma LogicalConverter_loop_raises (values : list str) (e : exn) :
  LogicalConverter_loop values = Raise e -> conversion_msg e.
Proof.
  induction values as [|val values IH]; simpl; [discriminate|].
  unfold mbind, result_bind. repeat case_decide.
  - destruct (LogicalConverter_loop values); [discriminate|].
    intros [= <-]. by apply IH.
  - destruct (LogicalConverter_loop values); [discriminate|].
    intros [= <-]. by apply IH.
  - intros [= <-]. bad_letter.
Qed.

Lemma convert_raises (self : Converter) (values : list str) (e : exn) :
  convert self values = Raise e -> conversion_msg e.
Proof.
  unfold convert. destruct (cls self).
  - unfold FloatConverter_convert. destruct (mapM _ _); [discriminate|].
    intros [= <-]. bad_letter.
  - unfold IntConverter_convert. destruct (mapM _ _); [discriminate|].
    intros [= <-]. bad_letter.
  - unfold ComplexConverter_convert.
    destruct (_ ≫= _); [discriminate|]. intros [= <-]. bad_letter.
  - unfold LogicalConverter_convert.
    destruct (LogicalConverter_loop values) eqn:E; simpl; [discriminate|].
    intros [= <-]. by eapply LogicalConverter_loop_raises.
Qed.

Lemma deliver_raises (self : Converter) (a : array) (e : exn) :
  deliver self a = Raise e -> e = IndexError.
Proof.
  unfold deliver. destruct (nolist self); [|discriminate].
  destruct a as [[|? ?]|[|? ?]|[|? ?]|[|? ?]]; simpl; congruence.
Qed.

Lemma call_raises (self : Converter) (strvalue : pyarg) (e : exn) :
  call self strvalue = Raise e ->
  e = AttributeError \/ e = IndexError \/ conversion_msg e.
Proof.
  assert (forall values, (result_ ← convert self values; deliver self result_) = Raise e ->
            e = IndexError \/ conversion_msg e) as Hrest.
  { intros values. destruct (convert self values) as [a|e'] eqn:E; simpl.
    - intros Hd. left. by eapply deliver_raises.
    - intros [= <-]. right. by eapply convert_raises. }
  assert (Converter_call self strvalue = Raise e ->
            e = AttributeError \/ e = IndexError \/ conversion_msg e) as Hbase.
  { unfold Converter_call. case_match.
    - intros [= <-]. right. right. bad_letter.
    - intros Hx. right. by eapply Hrest. }
  unfold call. destruct (cls self); try exact Hbase.
  unfold ComplexConverter_call. destruct strvalue as [s|lines].
  - repeat case_match.
    + intros [= <-]. right. right. bad_letter.
    + intros [= <-]. right. right. bad_letter.
    + intros Hx. right. by eapply Hrest.
  - intros [= <-]. by left.
Qed.

Lemma convert_data_raises (conv : Converter) (data_ : pyarg) (e : exn) :
  convert_data conv data_ = Raise e -> past_grammar e.
Proof.
  unfold convert_data, past_grammar.
  destruct (call conv data_) as [c|e'] eqn:E; [discriminate|].
  apply call_raises in E as [->|[->|(c & msg & -> & Hc)]].
  - by intros [= <-].
  - by intros [= <-].
  - intros [= <-]. vm_compute. intros [= ->]. by apply Hc.
Qed.

Lemma check_shape_raises (shape_ : list nat) (rank_ : nat) (c : converted) (e : exn) :
  check_shape shape_ rank_ c = Raise e -> past_grammar e.
Proof.
  unfold check_shape, past_grammar, len, reduce_mul.
  destruct shape_ as [|x rest]; [destruct (negb _) | destruct (negb _); [|destruct c]];
    unfold mbind, result_bind; try destruct (negb _);
    intros Heq; try discriminate Heq; injection Heq as <-;
    vm_compute; discriminate.
Qed.

Lemma np_reshape_raises (c : converted) (shape_ : list nat) (e : exn) :
  np_reshape c shape_ = Raise e -> e = ValueError.
Proof. unfold np_reshape. case_match; congruence. Qed.

(** Once the header has matched, no later step reports a tag format
    error. *)
Lemma TaggedEntry_init_grammar (tagline_ : str) (data_ : pyarg) :
  TaggedEntry_init tagline_ data_ = Raise (InvalidEntryError 0 0 (lit "Invalid tag format"))
  <-> Re.match_ _PAT_TAGLINE tagline_ = None.
Proof.
  unfold TaggedEntry_init. destruct (Re.match_ _ _) as [m|]; [|done].
  split; [|discriminate]. intros Hinit. exfalso.
  apply bind_Raise in Hinit as [Hrank|(rank_ & _ & Hinit)].
  { unfold int_ in Hrank. destruct (int_digits _); discriminate. }
  apply bind_Raise in Hinit as [Hshape|(shape_ & _ & Hinit)].
  { destruct (0 <? rank_); [|discriminate].
    apply mapM_int_raises in Hshape. discriminate. }
  destruct (_CONVERTERS !! _) as [conv|].
  2:{ vm_compute in Hinit. discriminate. }
  apply bind_Raise in Hinit as [Hc|(c & _ & Hinit)].
  { by eapply convert_data_raises. }
  apply bind_Raise in Hinit as [Hs|([] & _ & Hinit)].
  { by eapply check_shape_raises. }
  apply bind_Raise in Hinit as [Hr|(a & _ & Hinit)]; [|discriminate].
  apply np_reshape_raises in Hr. discriminate.
Qed.

End Errors.

(* ===================================================================== *)
(** ** The grammar check of [TaggedEntry] *)
(* ===================================================================== *)

(** A header of the specification's grammar whose rank is a single digit
    passes the grammar check. *)
Lemma spec_header_one_digit (name_ dtype_ : str) (c : ascii) (fields : list str)
    (s : str) :
  spec_header_of name_ dtype_ [c] fields s -> tagline_pattern s.
Proof.
  intros (-> & Hn1 & Hn2 & Hd1 & Hd2 & [_ Hr] & Hf & _ & _).
  exists name_, [], dtype_, c, fields, []. rewrite app_nil_r.
  split_and!; try done; [by inversion Hr | by left].
Qed.

(** C5, as the code has it: the construction fails with "Invalid tag format"
    exactly when the header line is not of the form [_PAT_TAGLINE] spells
    out: a name, optional white space, a dtype, a rank of exactly one digit,
    a shape that is empty or digit runs separated by commas, and at most one
    final newline; so a line that is not of this form is always rejected,
    and a header of the specified grammar whose rank is one digit never
    is. *)
Theorem C5_invalid_tag_format_iff `{Numpy} (tagline_ : str) (data_ : pyarg) :
  (TaggedEntry_init tagline_ data_
     = Raise (InvalidEntryError 0 0 (lit "Invalid tag format"))
   <-> ~ tagline_pattern tagline_)
  /\ (forall (name_ dtype_ : str) (c : ascii) (fields : list str),
        spec_header_of name_ dtype_ [c] fields tagline_ ->
        TaggedEntry_init tagline_ data_
        <> Raise (InvalidEntryError 0 0 (lit "Invalid tag format"))).
Proof.
  assert (TaggedEntry_init tagline_ data_
            = Raise (InvalidEntryError 0 0 (lit "Invalid tag format"))
          <-> ~ tagline_pattern tagline_) as Hiff.
  { rewrite TaggedEntry_init_grammar, ReFacts.match_None.
    by rewrite PAT_TAGLINE_matches. }
  split; [exact Hiff|].
  intros name_ dtype_ c fields Hspec Hraise.
  apply Hiff in Hraise. apply Hraise.
  by eapply spec_header_one_digit.
Qed.

(** A header with rank 10 and ten positive dimensions is of the specified
    form and is rejected by the grammar check. *)
Lemma rank_ten_rejected :
  spec_header Sample.rank_ten /\
  @TaggedEntry_init Literal.carriers Literal.numpy
      Sample.rank_ten (PList [Sample.line "1.0"])
    = Raise (InvalidEntryError 0 0 (lit "Invalid tag format")).
Proof.
  split; [|by vm_compute].
  exists (lit "a"), (lit "real"), (lit "10"), (replicate 10 (lit "1")).
  unfold spec_header_of. split_and!; try (by vm_compute).
  - repeat constructor; discriminate.
  - by repeat constructor.
  - split; [done | by repeat constructor].
  - apply Forall_replicate. split; [done | by repeat constructor].
  - apply Forall_replicate. exists 1. split; [by vm_compute | lia].
Qed.


(* ===================================================================== *)
(** ** [TaggedCollection] *)
(* ===================================================================== *)

Section Collection.
Context `{Numpy}.

Lemma extend_cons (self : TaggedCollection) (entry : TaggedEntry)
    (entries : list TaggedEntry) :
  extend self (entry :: entries) = extend (extend1 self entry) entries.
Proof. reflexivity. Qed.

(** [extend] appends: nothing leaves the sequence. *)
Lemma extend_entries (self : TaggedCollection) (entries : list TaggedEntry) :
  _entries (extend self entries) = _entries self ++ entries.
Proof.
  revert self. induction entries as [|entry entries IH]; intros self.
  - simpl. by rewrite app_nil_r.
  - rewrite extend_cons, IH. simpl. by rewrite <- app_assoc.
Qed.

(** The index never holds more names than the sequence holds entries. *)
Lemma extend_size (self : TaggedCollection) (entries : list TaggedEntry) :
  size (_names self) <= length (_entries self) ->
  size (_names (extend self entries)) <= length (_entries (extend self entries)).
Proof.
  revert self. induction entries as [|entry entries IH]; intros self Hle; [done|].
  rewrite extend_cons. apply IH. simpl.
  rewrite length_app. simpl.
  destruct (_names self !! name entry) eqn:E.
  - rewrite map_size_insert_Some by eauto. lia.
  - rewrite map_size_insert_None by done. lia.
Qed.

(** Extending with a fresh name, then with the same name again, when the
    index and the sequence agree in size: the name leads to the later of the
    two. *)
Lemma get_after_duplicate (self : TaggedCollection) (e1 e2 : TaggedEntry) :
  size (_names self) = length (_entries self) ->
  _names self !! name e1 = None ->
  name e1 = name e2 ->
  get (extend self [e1; e2]) (name e1) = Ok (Some e2).
Proof.
  intros Hsize Hfresh Hname. unfold get, extend. simpl. rewrite <- Hname.
  rewrite lookup_insert_eq.
  rewrite map_size_insert_None by done. rewrite Hsize.
  rewrite <- app_assoc. simpl.
  replace (S (length (_entries self))) with (length (_entries self) + 1) by lia.
  rewrite lookup_app_r by lia.
  replace (length (_entries self) + 1 - length (_entries self)) with 1 by lia.
  done.
Qed.

(** A new collection built from two entries of the same name returns the
    later one under that name. *)
Theorem new_collection_returns_later (e1 e2 : TaggedEntry) :
  name e1 = name e2 ->
  get (TaggedCollection_init [e1; e2]) (name e1) = Ok (Some e2).
Proof.
  intros Hname. unfold TaggedCollection_init.
  apply get_after_duplicate; [apply map_size_empty | apply lookup_empty | done].
Qed.

(** C8 fails on the code when the collection that is extended already holds
    the name: both new entries are indexed under the number of names, which
    does not grow, so the name leads to the first of the two, while the
    second sits behind it in the sequence. *)
Theorem C8_receiver_holds_name (self : TaggedCollection) (e1 e2 : TaggedEntry) :
  size (_names self) = length (_entries self) ->
  is_Some (_names self !! name e1) ->
  name e1 = name e2 ->
  _entries (extend self [e1; e2]) = _entries self ++ [e1; e2]
  /\ _names (extend self [e1; e2]) !! name e1 = Some (length (_entries self))
  /\ get (extend self [e1; e2]) (name e1) = Ok (Some e1).
Proof.
  intros Hsize Hheld Hname.
  assert (_names (extend self [e1; e2]) !! name e1
          = Some (length (_entries self))) as Hidx.
  { unfold extend. simpl. rewrite <- Hname. rewrite lookup_insert_eq.
    rewrite map_size_insert_Some by done. by rewrite Hsize. }
  split_and!; [|exact Hidx|].
  - unfold extend. simpl. by rewrite <- app_assoc.
  - unfold get. rewrite Hidx. unfold extend. simpl.
    rewrite <- app_assoc. simpl.
    rewrite lookup_app_r by lia. by rewrite Nat.sub_diag.
Qed.

(** C2 fails on the code: the index records the number of names, not the
    position.  After a repeated name, a third entry is indexed one short,
    and [get] returns the entry before it, which carries another name. *)
Theorem C2_index_is_not_position (e1 e2 e3 : TaggedEntry) :
  name e1 = name e2 ->
  name e3 <> name e1 ->
  _entries (TaggedCollection_init [e1; e2; e3]) = [e1; e2; e3]
  /\ _names (TaggedCollection_init [e1; e2; e3]) !! name e3 = Some 1
  /\ get (TaggedCollection_init [e1; e2; e3]) (name e3) = Ok (Some e2).
Proof.
  intros Hname Hne.
  assert (_names (TaggedCollection_init [e1; e2; e3]) !! name e3 = Some 1) as Hidx.
  { unfold TaggedCollection_init, extend. simpl. rewrite <- Hname.
    rewrite lookup_insert_eq. f_equal.
    rewrite insert_insert_eq, insert_empty. apply map_size_singleton. }
  split_and!; [done | exact Hidx |].
  unfold get. rewrite Hidx. done.
Qed.

(** C4 fails on the code: removing the only entry of a collection pops the
    name, deletes the entry and then raises [AttributeError]. *)
Theorem C4_remove_raises (entry : TaggedEntry) :
  remove (TaggedCollection_init [entry]) (name entry)
  = (Raise AttributeError, {| _names := ∅; _entries := [] |}).
Proof.
  unfold remove, TaggedCollection_init, extend. simpl.
  rewrite lookup_insert_eq, map_size_empty. simpl.
  by rewrite delete_insert_eq, delete_empty.
Qed.

(** Whatever the collection, [remove] of an indexed name does not return. *)
Lemma remove_indexed_raises (self : TaggedCollection) (name_ : str) (ii : nat) :
  _names self !! name_ = Some ii ->
  (remove self name_).1 = Raise AttributeError
  \/ (remove self name_).1 = Raise IndexError.
Proof.
  intros Hidx. unfold remove. rewrite Hidx.
  destruct (ii <? length (_entries self)); [by left | by right].
Qed.

End Collection.

(** Witness of [new_collection_returns_later]. *)
Lemma new_collection_returns_later_witness :
  name Sample.x1 = name Sample.x2
  /\ get (TaggedCollection_init [Sample.x1; Sample.x2]) (name Sample.x1)
     = Ok (Some Sample.x2).
Proof.
  split; [reflexivity|]. apply new_collection_returns_later. reflexivity.
Defined.

(** Witness of [C8_receiver_holds_name]: a collection that holds one [x] is
    extended with two more; [get] answers with the first of them. *)
Lemma C8_receiver_holds_name_witness :
  name Sample.x2 = name Sample.x3
  /\ Sample.x2 <> Sample.x3
  /\ _entries (extend (TaggedCollection_init [Sample.x1]) [Sample.x2; Sample.x3])
     = [Sample.x1; Sample.x2; Sample.x3]
  /\ get (extend (TaggedCollection_init [Sample.x1]) [Sample.x2; Sample.x3]) (lit "x")
     = Ok (Some Sample.x2).
Proof.
  assert (name Sample.x2 = name Sample.x3) as H23 by reflexivity.
  assert (size (_names (TaggedCollection_init [Sample.x1]))
          = length (_entries (TaggedCollection_init [Sample.x1]))) as Hsize
    by (vm_compute; reflexivity).
  assert (is_Some (_names (TaggedCollection_init [Sample.x1]) !! name Sample.x2))
    as Hheld by (exists 0; vm_compute; reflexivity).
  destruct (C8_receiver_holds_name (TaggedCollection_init [Sample.x1])
              Sample.x2 Sample.x3 Hsize Hheld H23) as (Hentries & _ & Hget).
  split_and!; [exact H23 | discriminate | exact Hentries | exact Hget].
Defined.

(** Witness of [C2_index_is_not_position]: asked for [y], the collection
    answers with the second [x]. *)
Lemma C2_index_is_not_position_witness :
  name Sample.x1 = name Sample.x2
  /\ name Sample.y <> name Sample.x1
  /\ _entries (TaggedCollection_init [Sample.x1; Sample.x2; Sample.y]) !! 2
     = Some Sample.y
  /\ get (TaggedCollection_init [Sample.x1; Sample.x2; Sample.y]) (lit "y")
     = Ok (Some Sample.x2).
Proof.
  assert (name Sample.x1 = name Sample.x2) as Hsame by reflexivity.
  assert (name Sample.y <> name Sample.x1) as Hother by discriminate.
  destruct (C2_index_is_not_position Sample.x1 Sample.x2 Sample.y Hsame Hother)
    as (Hentries & _ & Hget).
  split_and!; [exact Hsame | exact Hother | by rewrite Hentries | exact Hget].
Defined.

(** *** Pattern search *)

(** A literal pattern consumes exactly its text. *)
Lemma matches_Text (inp w s s' : str) :
  Re.matches inp (Re.Text w) s s' <-> s = w ++ s'.
Proof.
  revert s. induction w as [|c w IH]; intros s; simpl.
  - apply ReFacts.matches_Eps.
  - rewrite ReFacts.matches_Cat. split.
    + intros (s1 & H1 & H2). apply ReFacts.matches_Lit in H1 as ->.
      apply IH in H2 as ->. done.
    + intros ->. exists (w ++ s'). split; [by apply ReFacts.matches_Lit | by apply IH].
Qed.

(** Matching a literal pattern is "starts with". *)
Lemma matches_at_start_Text (w s : str) :
  Re.matches_at_start (Re.Text w) s <-> exists rest, s = w ++ rest.
Proof.
  unfold Re.matches_at_start. split; intros [rest Hm]; exists rest.
  - by apply (matches_Text s).
  - by apply (matches_Text s).
Qed.

(** Whether a pattern matches at offset 0 can be decided: run the matcher. *)
Lemma matches_at_start_dec (pattern : Re.re) (s : str) :
  Decision (Re.matches_at_start pattern s).
Proof.
  destruct (Re.match_ pattern s) as [m|] eqn:E.
  - left. apply ReFacts.match_iff. by exists m.
  - right. by apply ReFacts.match_None.
Defined.

(** C9: [matching_taglines] returns the entries whose header text the
    pattern matches at offset 0, all of them and no other, in the order of
    the sequence; the match is against the header, and anchored: [@eigen]
    selects [@eigenlevels_up:real:2:2,15] and not [@foo_eigen:real:0:]. *)
Theorem C9_matching_taglines `{Numpy} (self : TaggedCollection) (pattern : Re.re)
    (dec : forall s, Decision (Re.matches_at_start pattern s)) :
  matching_taglines self pattern
  = filter (fun entry => Re.matches_at_start pattern (tagline entry)) (_entries self)
  /\ Re.matches_at_start (Re.Text (lit "@eigen")) (lit "@eigenlevels_up:real:2:2,15")
  /\ ~ Re.matches_at_start (Re.Text (lit "@eigen")) (lit "@foo_eigen:real:0:").
Proof.
  split_and!.
  - unfold matching_taglines. apply list_filter_iff.
    intros entry. apply ReFacts.match_iff.
  - apply matches_at_start_Text. by exists (lit "levels_up:real:2:2,15").
  - rewrite matches_at_start_Text. intros [rest Heq]. discriminate Heq.
Qed.

(* ===================================================================== *)
(** ** [TaggedReader] *)
(* ===================================================================== *)

Section Reader.
Context `{Numpy}.

(** [readline] never returns an empty line before the end of the file. *)
Lemma StringIO_nonempty (text : str) :
  Forall (fun line => line <> []) (StringIO text).
Proof.
  induction text as [|c text IH]; simpl; [constructor|].
  destruct (chr_eqb c newline); [by constructor|].
  destruct (StringIO text) as [|line lines]; [by repeat constructor|].
  inversion IH; subst. by constructor.
Qed.

Lemma is_header_nonempty (line : str) : is_header line = true -> line <> [].
Proof. by destruct line. Qed.

(** The headers of the blocks are the header lines, in file order. *)
Lemma blocks_headers (lines : list str) :
  map fst (blocks lines) = List.filter is_header lines.
Proof.
  induction lines as [|line lines IH]; simpl; [done|].
  destruct (is_header line); simpl; by rewrite IH.
Qed.

Lemma blocks_length (lines : list str) : length (blocks lines) <= length lines.
Proof.
  induction lines as [|line lines IH]; simpl; [done|].
  destruct (is_header line); simpl; lia.
Qed.

(** [_readnext_tagline] reads the rest of the current block and stops on
    the header of the next one, if any. *)
Lemma readnext_blocks (fp : stream) :
  Forall (fun line => line <> []) fp ->
  exists header fp',
    _readnext_tagline fp = (block_data fp, header, fp')
    /\ Forall (fun line => line <> []) fp'
    /\ ((header = [] /\ blocks fp = [])
        \/ (is_header header = true
            /\ blocks fp = (header, block_data fp') :: blocks fp')).
Proof.
  induction 1 as [|line fp Hline Hfp IH]; simpl.
  - exists [], []. split_and!; [done | constructor | by left].
  - destruct line as [|c line]; [done|].
    change (startswith_at (c :: line)) with (is_header (c :: line)).
    destruct (is_header (c :: line)) eqn:Hh.
    + exists (c :: line), fp. split_and!; [done | done | by right].
    + destruct IH as (header & fp' & -> & Hfp' & Hcase).
      exists header, fp'. split_and!; done.
Qed.

(** One successful call of [next]: the reader moves to the next block. *)
Lemma next_builds (reader : TaggedReader) (entry : TaggedEntry) :
  Forall (fun line => line <> []) (_fp reader) ->
  _lasttagline reader <> [] ->
  builds entry (_lasttagline reader, block_data (_fp reader)) ->
  exists reader',
    next reader = (Ok entry, reader')
    /\ Forall (fun line => line <> []) (_fp reader')
    /\ pending reader' = blocks (_fp reader).
Proof.
  intros Hfp Hlast Hbuild. unfold builds in Hbuild. simpl in Hbuild.
  destruct (readnext_blocks _ Hfp) as (header & fp' & Hread & Hfp' & Hcase).
  unfold next. destruct (_lasttagline reader) as [|c last] eqn:El; [done|].
  rewrite Hread, Hbuild. eexists. split_and!; [done | done |].
  unfold pending. simpl.
  destruct Hcase as [[-> ->]|[Hh ->]]; [done|].
  apply is_header_nonempty in Hh. by destruct header.
Qed.

(** Iterating a reader whose remaining blocks are all valid produces their
    entries, in order, and then stops normally. *)
Lemma iterate_pending (fuel : nat) :
  forall reader : TaggedReader,
    Forall (fun line => line <> []) (_fp reader) ->
    length (pending reader) < fuel ->
    Forall valid_block (pending reader) ->
    exists entries,
      iterate fuel reader = Some (entries, StopIteration)
      /\ Forall2 builds entries (pending reader).
Proof.
  induction fuel as [|fuel IH]; intros reader Hfp Hfuel Hvalid; [lia|].
  destruct (_lasttagline reader) as [|c last] eqn:El.
  - exists []. unfold pending. rewrite El. split; [|constructor].
    simpl. unfold next. by rewrite El.
  - unfold pending in Hfuel, Hvalid |- *. rewrite El in Hfuel, Hvalid |- *.
    inversion Hvalid as [|? ? [entry Hentry] Hrest]; subst.
    destruct (next_builds reader entry Hfp) as (reader' & Hnext & Hfp' & Hpend).
    { by rewrite El. }
    { by rewrite El. }
    destruct (IH reader' Hfp') as (entries & Hiter & Hall).
    { rewrite Hpend. simpl in Hfuel. lia. }
    { by rewrite Hpend. }
    exists (entry :: entries). split.
    + simpl. rewrite Hnext, Hiter. done.
    + constructor; [done | by rewrite <- Hpend].
Qed.

(** After construction, the reader has the blocks of the whole file to
    produce. *)
Lemma TaggedReader_init_pending (lines : stream) :
  Forall (fun line => line <> []) lines ->
  pending (TaggedReader_init lines) = blocks lines
  /\ Forall (fun line => line <> []) (_fp (TaggedReader_init lines)).
Proof.
  intros Hlines. unfold TaggedReader_init, pending.
  destruct (readnext_blocks _ Hlines) as (header & fp' & -> & Hfp' & Hcase).
  simpl. split; [|done].
  destruct Hcase as [[-> ->]|[Hh ->]]; [done|].
  apply is_header_nonempty in Hh. by destruct header.
Qed.

(** C7: when every block of the file forms a valid entry, iterating the
    reader produces one entry per header line, each built from its own
    block, in file order, and then terminates normally; with no header line
    the first call of [next] already signals the end. *)
Theorem C7_one_entry_per_header (text : str) :
  Forall valid_block (blocks (StringIO text)) ->
  exists entries,
    iterate (S (length (StringIO text))) (TaggedReader_init (StringIO text))
      = Some (entries, StopIteration)
    /\ Forall2 builds entries (blocks (StringIO text))
    /\ map fst (blocks (StringIO text)) = List.filter is_header (StringIO text)
    /\ length entries = length (List.filter is_header (StringIO text))
    /\ (List.filter is_header (StringIO text) = [] ->
        (next (TaggedReader_init (StringIO text))).1 = Raise StopIteration).
Proof.
  intros Hvalid.
  destruct (TaggedReader_init_pending _ (StringIO_nonempty text)) as [Hpend Hfp].
  destruct (iterate_pending (S (length (StringIO text)))
              (TaggedReader_init (StringIO text)) Hfp) as (entries & Hiter & Hall).
  { rewrite Hpend. pose proof (blocks_length (StringIO text)). lia. }
  { by rewrite Hpend. }
  rewrite Hpend in Hall.
  exists entries. split_and!; [done | done | apply blocks_headers | |].
  - rewrite <- blocks_headers, length_map. by eapply Forall2_length.
  - intros Hnone. rewrite <- blocks_headers in Hnone.
    simpl in Hiter. destruct (next _) as [[entry|e] reader'] eqn:Enext; [|].
    + apply Forall2_length in Hall.
      destruct (iterate _ reader') as [[es e']|]; simpl in Hiter; [|done].
      injection Hiter as <- _.
      destruct (blocks (StringIO text)); [done | discriminate].
    + simpl. by injection Hiter as _ ->.
Qed.

End Reader.

(* --------------------------------------------------------------------- *)
(** *** Line numbers and the state after an error *)

Section ReaderErrors.
Context `{Numpy}.

(** Reading up to a header gives back the lines in front of it. *)
Lemma readnext_upto_header (datalines : list str) (header : str) (fp : stream) :
  Forall (fun line => line <> [] /\ is_header line = false) datalines ->
  is_header header = true ->
  _readnext_tagline (datalines ++ header :: fp) = (datalines, header, fp).
Proof.
  intros Hdata Hh. induction Hdata as [|line datalines [Hne Hline] _ IH]; simpl.
  - destruct header as [|c header]; [done|].
    unfold is_header in Hh. by rewrite Hh.
  - destruct line as [|c line]; [done|].
    unfold is_header in Hline. by rewrite Hline, IH.
Qed.

(** Reading up to the end of the file gives back the lines left. *)
Lemma readnext_upto_end (datalines : list str) :
  Forall (fun line => line <> [] /\ is_header line = false) datalines ->
  _readnext_tagline datalines = (datalines, [], []).
Proof.
  induction 1 as [|line datalines [Hne Hline] _ IH]; simpl; [done|].
  destruct line as [|c line]; [done|].
  unfold is_header in Hline. by rewrite Hline, IH.
Qed.

(** No call of [next] changes [_lasttagline_ind]: the assignment after a
    successful construction goes to another attribute, [_lastagline_ind]. *)
Lemma next_lasttagline_ind (reader : TaggedReader) :
  _lasttagline_ind (next reader).2 = _lasttagline_ind reader.
Proof.
  unfold next. destruct (_lasttagline reader); [done|].
  destruct (_readnext_tagline _) as [[datalines tagline_] fp].
  destruct (TaggedEntry_init _ _) as [entry|[]]; done.
Qed.

(** The outcome of [next] on a primed reader in terms of the block read. *)
Lemma next_surfaced (reader : TaggedReader) (datalines : list str)
    (tagline_ : str) (fp : stream) :
  _lasttagline reader <> [] ->
  _readnext_tagline (_fp reader) = (datalines, tagline_, fp) ->
  (next reader).1 = surfaced (_lasttagline_ind reader) (_lasttagline reader) datalines.
Proof.
  intros Hlast Hread. unfold next, surfaced. rewrite Hread.
  destruct (_lasttagline reader) as [|c last]; [done|].
  destruct (TaggedEntry_init _ _) as [entry|[]]; done.
Qed.

(** C10: a call of [next] that raises [InvalidEntryError] leaves the
    buffered header and its line number as they were, while the file has
    been read through the next header; the following call pairs the failed
    header with the data of the following block. *)
Theorem C10_state_after_error (h1 h2 : str) (d1 d2 rest : list str)
    (ind : nat) (typo : option nat) (s e : nat) (msg : str) :
  h1 <> [] ->
  Forall (fun line => line <> [] /\ is_header line = false) d1 ->
  is_header h2 = true ->
  Forall (fun line => line <> [] /\ is_header line = false) d2 ->
  (rest = [] \/ exists h3 rest', rest = h3 :: rest' /\ is_header h3 = true) ->
  TaggedEntry_init h1 (PList d1) = Raise (InvalidEntryError s e msg) ->
  let reader := {| _fp := d1 ++ h2 :: d2 ++ rest; _lasttagline := h1;
                   _lasttagline_ind := ind; _lastagline_ind := typo |} in
  let after := (next reader).2 in
  (next reader).1 = Raise (InvalidEntryError (ind + 1) (ind + length d1) msg)
  /\ _lasttagline after = h1
  /\ _lasttagline_ind after = ind
  /\ _fp after = d2 ++ rest
  /\ (next after).1 = surfaced ind h1 d2.
Proof.
  intros Hh1 Hd1 Hh2 Hd2 Hrest Hfail reader after.
  assert (next reader
          = (Raise (InvalidEntryError (ind + 1) (ind + length d1) msg),
             {| _fp := d2 ++ rest; _lasttagline := h1;
                _lasttagline_ind := ind; _lastagline_ind := typo |})) as Hnext.
  { unfold next, reader. simpl. destruct h1 as [|c h1]; [done|].
    rewrite (readnext_upto_header d1 h2 _ Hd1 Hh2), Hfail. done. }
  subst after. rewrite Hnext. simpl. split_and!; try done.
  assert (exists tagline_ fp, _readnext_tagline (d2 ++ rest) = (d2, tagline_, fp))
    as (tagline_ & fp & Hread).
  { destruct Hrest as [->|(h3 & rest' & -> & Hh3)].
    - rewrite app_nil_r, (readnext_upto_end d2 Hd2). eauto.
    - rewrite (readnext_upto_header d2 h3 _ Hd2 Hh3). eauto. }
  by rewrite (next_surfaced _ d2 tagline_ fp).
Qed.

(** C1 fails on the code.  In a file of two entries whose second block,
    lines 3 to 4, is malformed, the error of the second call carries the
    lines 1 to 1: the running line number still is that of the first header,
    and the end is one short of the last data line. *)
Theorem C1_second_block_range :
  let reader := TaggedReader_init (StringIO Sample.second_malformed) in
  StringIO Sample.second_malformed
    = [Sample.line "@a:logical:0:"; Sample.line " T";
       Sample.line "@b:logical:1:2"; Sample.line " F"]
  /\ (exists entry, (next reader).1 = Ok entry)
  /\ (next (next reader).2).1
     = Raise (InvalidEntryError 1 1 (lit "Invalid nr. of values")).
Proof.
  split_and!; [by vm_compute | | by vm_compute].
  eexists. by vm_compute.
Qed.

(** C3 fails on the code: whatever lines the reader passes, a complex entry
    is not decoded; [ComplexConverter.__call__] raises [AttributeError] on a
    list, and [next] lets it through. *)
Theorem C3_complex_lines_raise (lines : list str) :
  call {| cls := ComplexConverter; nolist := false |} (PList lines)
    = Raise AttributeError
  /\ TaggedEntry_init (Sample.line "@z:complex:0:") (PList lines)
     = Raise AttributeError
  /\ (next (TaggedReader_init (StringIO Sample.complex_scalar))).1
     = Raise AttributeError.
Proof. split_and!; by vm_compute. Qed.

(** With a rank of 0 the number of values is checked by [np.reshape] only:
    any count other than one ends in its [ValueError]. *)
Lemma rank0_wrong_count (tagline_ : str) (data_ : pyarg) (m : Re.captures)
    (conv : Converter) (c : converted) :
  Re.match_ _PAT_TAGLINE tagline_ = Some m ->
  int_ (Re.group m "rank") = Ok 0 ->
  _CONVERTERS !! Re.group m "dtype" = Some conv ->
  call conv data_ = Ok c ->
  (forall a, c = CArray a -> array_len a <> 1) ->
  TaggedEntry_init tagline_ data_ = Raise ValueError.
Proof.
  intros Hm Hrank Hconv Hcall Hcount.
  unfold TaggedEntry_init. rewrite Hm, Hrank. simpl. rewrite Hconv.
  unfold convert_data. rewrite Hcall. simpl.
  unfold np_reshape. destruct c as [a|i]; simpl.
  - specialize (Hcount a eq_refl).
    destruct (array_len a =? 1) eqn:E; [|done].
    by apply Nat.eqb_eq in E.
  - assert (nolist conv = false) as Hno.
    { unfold _CONVERTERS in Hconv. simpl in Hconv.
      repeat (apply lookup_insert_Some in Hconv as [[_ <-]|[_ Hconv]]; [done|]).
      by rewrite lookup_empty in Hconv. }
    unfold call, Converter_call, ComplexConverter_call, deliver in Hcall.
    rewrite Hno in Hcall. simpl in Hcall.
    destruct (cls conv), data_; simpl in Hcall;
      repeat case_match; simplify_eq;
      apply bind_Ok in Hcall as (? & _ & [=]).
Qed.

(** An entry of rank 0 holds exactly one value. *)
Lemma rank0_one_value (tagline_ : str) (data_ : pyarg) (entry : TaggedEntry) :
  TaggedEntry_init tagline_ data_ = Ok entry ->
  rank entry = 0 ->
  shape entry = [] /\ array_len (nd_flat (data entry)) = 1.
Proof.
  unfold TaggedEntry_init. destruct (Re.match_ _ _) as [m|]; [|done].
  intros Hinit Hrank.
  apply bind_Ok in Hinit as (rank_ & _ & Hinit).
  apply bind_Ok in Hinit as (shape_ & Hshape & Hinit).
  destruct (_CONVERTERS !! _) as [conv|]; [|done].
  apply bind_Ok in Hinit as (c & _ & Hinit).
  apply bind_Ok in Hinit as ([] & _ & Hinit).
  apply bind_Ok in Hinit as (a & Ha & [= <-]).
  simpl in *. subst rank_. simpl in Hshape. injection Hshape as <-.
  split; [done|].
  unfold np_reshape in Ha. simpl in Ha.
  destruct (_ =? 1) eqn:E; [|done].
  injection Ha as <-. simpl. by apply Nat.eqb_eq in E.
Qed.

(** C6 fails on the code: a scalar header with two values, or with none,
    does make the construction fail, but with the [ValueError] of
    [np.reshape], which [next] does not turn into an [InvalidEntryError]. *)
Theorem C6_scalar_count_error :
  TaggedEntry_init (Sample.line "@a:logical:0:") (PList [Sample.line " T F"])
    = Raise ValueError
  /\ TaggedEntry_init (Sample.line "@a:logical:0:") (PList [])
     = Raise ValueError
  /\ (next (TaggedReader_init (StringIO Sample.scalar_two_values))).1
     = Raise ValueError.
Proof. split_and!; by vm_compute. Qed.

End ReaderErrors.

(* ===================================================================== *)
(** ** Worked examples *)
(* ===================================================================== *)

Section Examples.
#[local] Existing Instance Literal.carriers.
#[local] Existing Instance Literal.numpy.

(** Witness of [C7_one_entry_per_header]: prose, then three entries. *)
Lemma C7_one_entry_per_header_witness :
  Forall valid_block (blocks (StringIO Sample.three_entries))
  /\ exists entries,
       iterate 9 (TaggedReader_init (StringIO Sample.three_entries))
         = Some (entries, StopIteration)
       /\ map name entries = [lit "a"; lit "m"; lit "b"].
Proof.
  assert (Forall valid_block (blocks (StringIO Sample.three_entries))) as Hvalid.
  { let bs := eval vm_compute in (blocks (StringIO Sample.three_entries)) in
    change (blocks (StringIO Sample.three_entries)) with bs.
    repeat (constructor; [eexists; vm_compute; reflexivity|]). constructor. }
  split; [exact Hvalid|].
  destruct (C7_one_entry_per_header Sample.three_entries Hvalid)
    as (entries & Hiter & _).
  exists entries. split; [exact Hiter|].
  vm_compute in Hiter. injection Hiter as <-. reflexivity.
Defined.

(** Witness of [C10_state_after_error]: the first block fails, and the
    following call builds an entry named [a] from the data of block [b]. *)
Lemma C10_state_after_error_witness :
  let h1 := Sample.line "@a:real:1:2" in
  let d1 := [Sample.line "1.0"] in
  let h2 := Sample.line "@b:real:0:" in
  let d2 := [Sample.line "2.0 3.0"] in
  let rest := [Sample.line "@c:real:0:"; Sample.line "4.0"] in
  let reader := TaggedReader_init (StringIO Sample.first_malformed) in
  let after := (next reader).2 in
  TaggedEntry_init h1 (PList d1)
    = Raise (InvalidEntryError 0 0 (lit "Invalid nr. of values"))
  /\ reader = {| _fp := d1 ++ h2 :: d2 ++ rest; _lasttagline := h1;
                 _lasttagline_ind := 0; _lastagline_ind := None |}
  /\ (next reader).1 = Raise (InvalidEntryError 1 1 (lit "Invalid nr. of values"))
  /\ _lasttagline after = h1
  /\ _fp after = d2 ++ rest
  /\ (next after).1 = surfaced 0 h1 d2
  /\ exists entry, surfaced 0 h1 d2 = Ok entry /\ name entry = lit "a".
Proof.
  intros h1 d1 h2 d2 rest reader after.
  assert (TaggedEntry_init h1 (PList d1)
          = Raise (InvalidEntryError 0 0 (lit "Invalid nr. of values"))) as Hfail
    by (vm_compute; reflexivity).
  assert (reader = {| _fp := d1 ++ h2 :: d2 ++ rest; _lasttagline := h1;
                      _lasttagline_ind := 0; _lastagline_ind := None |}) as Hreader
    by (vm_compute; reflexivity).
  destruct (C10_state_after_error h1 h2 d1 d2 rest 0 None 0 0
              (lit "Invalid nr. of values")) as (Hnext & Hlast & _ & Hfp & Hagain).
  - discriminate.
  - repeat constructor; discriminate.
  - reflexivity.
  - repeat constructor; discriminate.
  - right. eexists _, _. split; reflexivity.
  - exact Hfail.
  - subst after. rewrite Hreader.
    split_and!; [exact Hfail | reflexivity | exact Hnext | exact Hlast
                 | exact Hfp | exact Hagain |].
    eexists. split; vm_compute; reflexivity.
Defined.

End Examples.

(* ===================================================================== *)
(** ** The groups of a match *)
(* ===================================================================== *)

Module ReGroupsFacts.
Import Re ReFacts ReGroups.

Section Groups.
Variable inp : str.

Lemma star_loop_captured {A} (r : re) (k : str -> captures -> option A) (x : A) :
  (forall s caps k', run inp r s caps k' = Some x ->
     exists s1 c1, captured inp r s caps s1 c1 /\ k' s1 c1 = Some x) ->
  forall fuel s caps,
    star_loop (run inp r) k fuel s caps = Some x ->
    exists s2 c2, captured inp (Star r) s caps s2 c2 /\ k s2 c2 = Some x.
Proof.
  intros Hbody fuel.
  induction fuel as [|fuel IH]; intros s caps Hrun; simpl in Hrun.
  - exists s, caps. split; [constructor | exact Hrun].
  - destruct (run inp r s caps _) as [y|] eqn:Hb.
    + injection Hrun as Hy. subst y.
      destruct (Hbody _ _ _ Hb) as (s1 & c1 & Hm & Hk).
      simpl in Hk.
      destruct (length s1 <? length s) eqn:Hlt; [|discriminate].
      apply Nat.ltb_lt in Hlt.
      apply IH in Hk as (s2 & c2 & Hstar & Hk).
      exists s2, c2. split; [|exact Hk].
      eapply C_StarCons; eassumption.
    + exists s, caps. split; [constructor | exact Hrun].
Qed.

(** What the matcher returns was reached by a match, with the groups that
    match recorded. *)
Lemma run_captured {A} (r : re) :
  forall s caps (k : str -> captures -> option A) x,
    run inp r s caps k = Some x ->
    exists s1 c1, captured inp r s caps s1 c1 /\ k s1 c1 = Some x.
Proof.
  induction r as [|p|r1 IH1 r2 IH2|r1 IH1 r2 IH2|r IH|g r IH| |];
    intros s caps k x Hrun; simpl in Hrun.
  - exists s, caps. split; [constructor | exact Hrun].
  - destruct s as [|c s]; [discriminate|].
    destruct (p c) eqn:Hp; [|discriminate].
    exists s, caps. split; [by constructor | exact Hrun].
  - apply IH1 in Hrun as (s1 & c1 & Hm1 & Hrun).
    apply IH2 in Hrun as (s2 & c2 & Hm2 & Hk).
    exists s2, c2. split; [econstructor; eassumption | exact Hk].
  - destruct (run inp r1 s caps k) as [y|] eqn:H1.
    + injection Hrun as ->.
      apply IH1 in H1 as (s1 & c1 & Hm & Hk).
      exists s1, c1. split; [by apply C_AltL | exact Hk].
    + apply IH2 in Hrun as (s1 & c1 & Hm & Hk).
      exists s1, c1. split; [by apply C_AltR | exact Hk].
  - eapply star_loop_captured; [|exact Hrun].
    intros s' caps' k' Hb. exact (IH _ _ _ _ Hb).
  - apply IH in Hrun as (s1 & c1 & Hm & Hk).
    eexists s1, _. split; [by constructor | exact Hk].
  - destruct (length s =? length inp) eqn:Hlen; [|discriminate].
    apply Nat.eqb_eq in Hlen.
    exists s, caps. split; [by constructor | exact Hrun].
  - destruct s as [|c [|c' s]]; [| |discriminate].
    + exists [], caps. split; [constructor; by left | exact Hrun].
    + destruct (chr_eqb c newline) eqn:Hc; [|discriminate].
      apply Ascii.eqb_eq in Hc as ->.
      exists [newline], caps. split; [constructor; by right | exact Hrun].
Qed.

(** Forgetting the groups. *)
Lemma captured_matches r s c s1 c1 :
  captured inp r s c s1 c1 -> matches inp r s s1.
Proof.
  induction 1.
  - constructor.
  - by constructor.
  - econstructor; eassumption.
  - by apply M_AltL.
  - by apply M_AltR.
  - constructor.
  - eapply M_StarCons; eassumption.
  - by constructor.
  - by constructor.
  - by constructor.
Qed.

(** A pattern without groups leaves the groups alone. *)
Lemma captured_no_group r s c s1 c1 :
  no_group r = true -> captured inp r s c s1 c1 -> c1 = c.
Proof.
  intros Hng Hc. induction Hc; simpl in Hng; try done.
  - apply andb_true_iff in Hng as [H1 H2]. rewrite IHHc2, IHHc1; done.
  - apply andb_true_iff in Hng as [H1 H2]. by apply IHHc.
  - apply andb_true_iff in Hng as [H1 H2]. by apply IHHc.
  - rewrite IHHc2, IHHc1; done.
Qed.

Lemma captured_Cat r1 r2 s c s2 c2 :
  captured inp (Cat r1 r2) s c s2 c2 ->
  exists s1 c1, captured inp r1 s c s1 c1 /\ captured inp r2 s1 c1 s2 c2.
Proof. inversion 1; subst; eauto. Qed.

(** A group around a pattern without groups records what the pattern
    consumed. *)
Lemma captured_Grp g r s c s1 c1 :
  no_group r = true ->
  captured inp (Grp g r) s c s1 c1 ->
  exists w, s = w ++ s1 /\ matches inp r s s1 /\ c1 = (g, w) :: c.
Proof.
  intros Hng Hc. inversion Hc as [| | | | | | |? ? ? ? ? c0 Hr| |]; subst.
  pose proof (captured_matches _ _ _ _ _ Hr) as Hm.
  destruct (matches_suffix inp _ _ _ Hm) as [w ->].
  exists w. split_and!; [done | done |].
  rewrite (captured_no_group _ _ _ _ _ Hng Hr).
  do 2 f_equal. rewrite length_app.
  replace (length w + length s1 - length s1) with (length w) by lia.
  by rewrite take_app_length.
Qed.

Lemma captured_plain r s c s1 c1 :
  no_group r = true ->
  captured inp r s c s1 c1 -> matches inp r s s1 /\ c1 = c.
Proof.
  intros Hng Hc. split; [by eapply captured_matches | by eapply captured_no_group].
Qed.

End Groups.

(** A successful [pattern.match(s)] returns the groups of a match. *)
Lemma match_captured (pattern : re) (s : str) (m : captures) :
  match_ pattern s = Some m -> exists rest, captured s pattern s [] rest m.
Proof.
  unfold match_. intros Hrun.
  apply run_captured in Hrun as (s1 & c1 & Hc & [= <-]). eauto.
Qed.

End ReGroupsFacts.

(** When [_PAT_TAGLINE] matches, the line has the spelled-out form and the
    four groups hold its fields. *)
Lemma PAT_TAGLINE_groups (s : str) (m : Re.captures) :
  Re.match_ _PAT_TAGLINE s = Some m ->
  exists (name_ ws dtype_ : str) (rank_ : ascii) (fields : list str) (nl : str),
    s = "@"%char :: name_ ++ ws ++ ":"%char :: dtype_
          ++ ":"%char :: rank_ :: ":"%char :: join_comma fields ++ nl
    /\ name_ <> [] /\ Forall (fun c => c <> ":"%char /\ c <> " "%char) name_
    /\ Forall (fun c => isspace c = true) ws
    /\ dtype_ <> [] /\ Forall (fun c => c <> ":"%char) dtype_
    /\ isdigit rank_ = true
    /\ Forall digits fields
    /\ (nl = [] \/ nl = [newline])
    /\ m = [("shape", join_comma fields); ("rank", [rank_]);
            ("dtype", dtype_); ("name", name_)].
Proof.
  intros Hmatch.
  apply ReGroupsFacts.match_captured in Hmatch as (rest & Hc).
  unfold _PAT_TAGLINE in Hc.
  apply ReGroupsFacts.captured_Cat in Hc as (s0 & c0 & H0 & Hc).
  apply ReGroupsFacts.captured_plain in H0 as [H0 ->]; [|done].
  apply ReFacts.matches_Bos in H0 as [<- _].
  apply ReGroupsFacts.captured_Cat in Hc as (s1 & c1 & H1 & Hc).
  apply ReGroupsFacts.captured_plain in H1 as [H1 ->]; [|done].
  apply ReFacts.matches_Lit in H1.
  apply ReGroupsFacts.captured_Cat in Hc as (s2 & c2 & H2 & Hc).
  apply ReGroupsFacts.captured_Grp in H2 as (name_ & -> & H2 & ->); [|done].
  apply ReFacts.matches_Plus_Chr in H2 as (name' & Hn & Hn1 & Hn2).
  apply app_inv_tail in Hn as <-.
  apply ReGroupsFacts.captured_Cat in Hc as (s3 & c3 & H3 & Hc).
  apply ReGroupsFacts.captured_plain in H3 as [H3 ->]; [|done].
  apply ReFacts.matches_Star_Chr in H3 as (ws & -> & Hws).
  apply ReGroupsFacts.captured_Cat in Hc as (s4 & c4 & H4 & Hc).
  apply ReGroupsFacts.captured_plain in H4 as [H4 ->]; [|done].
  apply ReFacts.matches_Lit in H4 as ->.
  apply ReGroupsFacts.captured_Cat in Hc as (s5 & c5 & H5 & Hc).
  apply ReGroupsFacts.captured_Grp in H5 as (dtype_ & -> & H5 & ->); [|done].
  apply ReFacts.matches_Plus_Chr in H5 as (dtype' & Hd & Hd1 & Hd2).
  apply app_inv_tail in Hd as <-.
  apply ReGroupsFacts.captured_Cat in Hc as (s6 & c6 & H6 & Hc).
  apply ReGroupsFacts.captured_plain in H6 as [H6 ->]; [|done].
  apply ReFacts.matches_Lit in H6 as ->.
  apply ReGroupsFacts.captured_Cat in Hc as (s7 & c7 & H7 & Hc).
  apply ReGroupsFacts.captured_Grp in H7 as (rank' & -> & H7 & ->); [|done].
  apply ReFacts.matches_Chr in H7 as (rank_ & Hr & Hr1).
  assert (rank' = [rank_]) as ->.
  { change (rank_ :: s7) with ([rank_] ++ s7) in Hr. by apply app_inv_tail in Hr. }
  apply ReGroupsFacts.captured_Cat in Hc as (s8 & c8 & H8 & Hc).
  apply ReGroupsFacts.captured_plain in H8 as [H8 ->]; [|done].
  apply ReFacts.matches_Lit in H8 as ->.
  apply ReGroupsFacts.captured_Cat in Hc as (s9 & c9 & H9 & Hc).
  apply ReGroupsFacts.captured_Grp in H9 as (shape' & -> & H9 & ->); [|done].
  apply matches_shape in H9 as (fields & Hf & Hf1).
  apply app_inv_tail in Hf as ->.
  apply ReGroupsFacts.captured_plain in Hc as [Hc ->]; [|done].
  apply ReFacts.matches_Eos in Hc as [-> Hnl].
  exists name_, ws, dtype_, rank_, fields, rest. subst s.
  split_and!; try done.
  - eapply Forall_impl; [exact Hn2|]. intros c. apply noneof_colon_space.
  - eapply Forall_impl; [exact Hd2|]. intros c. apply noneof_colon.
Qed.

(* ===================================================================== *)
(** ** The fields of a header *)
(* ===================================================================== *)

Section HeaderFields.

Lemma isdigit_not_space (c : ascii) : isdigit c = true -> isspace c = false.
Proof.
  unfold isdigit, isspace. generalize (nat_of_ascii c). intros n Hd.
  apply andb_true_iff in Hd as [H1 H2].
  apply Nat.leb_le in H1. apply Nat.leb_le in H2.
  repeat (apply orb_false_iff; split);
    try (apply andb_false_iff; (left; apply Nat.leb_gt; lia) || (right; apply Nat.leb_gt; lia));
    apply Nat.eqb_neq; lia.
Qed.

Lemma isdigit_not (c d : ascii) : isdigit c = true -> isdigit d = false -> c <> d.
Proof. intros Hc Hd ->. congruence. Qed.

Lemma digit_val_lt (c : ascii) : isdigit c = true -> digit_val c < 10.
Proof.
  unfold isdigit, digit_val. intros Hd.
  apply andb_true_iff in Hd as [H1 H2].
  apply Nat.leb_le in H1. apply Nat.leb_le in H2. lia.
Qed.

Lemma int_digits_digits (d : str) : digits d -> int_digits d = Some (digits_value d).
Proof.
  intros [Hne Hd]. unfold int_digits. destruct d as [|c d]; [done|].
  assert (forallb isdigit (c :: d) = true) as ->; [|done].
  apply forallb_forall. intros x Hx. apply list_elem_of_In in Hx.
  by eapply (proj1 (Forall_forall _ _) Hd).
Qed.

Lemma int_one_digit (c : ascii) : isdigit c = true -> int_ [c] = Ok (digit_val c).
Proof.
  intros Hc. unfold int_. rewrite int_digits_digits.
  - unfold digits_value. simpl. first [reflexivity | f_equal; lia].
  - split; [done | by repeat constructor].
Qed.

Lemma mapM_int_digits (fields : list str) :
  Forall digits fields -> mapM int_ fields = Ok (map digits_value fields).
Proof.
  induction 1 as [|d fields Hd _ IH]; [done|].
  change (mapM int_ (d :: fields))
    with (y ← int_ d; k ← mapM int_ fields; mret (y :: k)).
  assert (int_ d = Ok (digits_value d)) as ->.
  { unfold int_. by rewrite (int_digits_digits d Hd). }
  rewrite IH. done.
Qed.

(** Splitting at a separator that the first field does not contain. *)
Lemma split_on_field (sep : ascii) (d s : str) :
  Forall (fun c => c <> sep) d ->
  split_on sep (d ++ sep :: s) = d :: split_on sep s.
Proof.
  induction 1 as [|c d Hc _ IH]; simpl.
  - unfold chr_eqb. by rewrite Ascii.eqb_refl.
  - unfold chr_eqb. apply Ascii.eqb_neq in Hc. rewrite Hc.
    fold (chr_eqb). by rewrite IH.
Qed.

Lemma split_on_single (sep : ascii) (d : str) :
  Forall (fun c => c <> sep) d -> split_on sep d = [d].
Proof.
  induction 1 as [|c d Hc _ IH]; simpl; [done|].
  unfold chr_eqb. apply Ascii.eqb_neq in Hc. rewrite Hc.
  fold (chr_eqb). by rewrite IH.
Qed.

Lemma digits_no_comma (d : str) : digits d -> Forall (fun c => c <> ","%char) d.
Proof.
  intros [_ Hd]. eapply Forall_impl; [exact Hd|].
  intros c Hc. by apply (isdigit_not c ","%char).
Qed.

(** [split(",")] undoes the joining of digit runs. *)
Lemma split_join_comma (fields : list str) :
  fields <> [] -> Forall digits fields ->
  split_on "," (join_comma fields) = fields.
Proof.
  intros Hne Hf. destruct Hf as [|d rest Hd Hrest]; [done|]. clear Hne.
  simpl. revert d Hd. induction Hrest as [|d' rest Hd' _ IH]; intros d Hd; simpl.
  - rewrite app_nil_r. by apply split_on_single, digits_no_comma.
  - rewrite split_on_field by by apply digits_no_comma.
    f_equal. by apply IH.
Qed.

(** Two texts with a colon after a colon-free front are equal part by
    part. *)
Lemma colon_split (a b a' b' : str) :
  Forall (fun x => x <> ":"%char) a -> Forall (fun x => x <> ":"%char) a' ->
  a ++ ":"%char :: b = a' ++ ":"%char :: b' -> a = a' /\ b = b'.
Proof.
  revert b a' b'. induction a as [|x a IH]; intros b [|x' a'] b' Ha Ha' Hab;
    simpl in Hab.
  - by injection Hab as ->.
  - injection Hab as <- _. by inversion Ha'.
  - injection Hab as -> _. by inversion Ha.
  - injection Hab as -> Hab. inversion Ha; inversion Ha'; subst.
    destruct (IH _ _ _ ltac:(done) ltac:(done) Hab) as [-> ->]. done.
Qed.

Lemma join_comma_chars (fields : list str) :
  Forall digits fields ->
  Forall (fun c => isspace c = false) (join_comma fields).
Proof.
  intros Hf. destruct Hf as [|d rest [_ Hd] Hrest]; [constructor|]. simpl.
  apply Forall_app. split.
  - eapply Forall_impl; [exact Hd|]. apply isdigit_not_space.
  - induction Hrest as [|d' rest [_ Hd'] _ IH]; [constructor|]. simpl.
    constructor; [done|]. apply Forall_app. split; [|exact IH].
    eapply Forall_impl; [exact Hd'|]. apply isdigit_not_space.
Qed.

(** The shape text and the final newline cannot be confused. *)
Lemma shape_newline_split (a a' nl nl' : str) :
  Forall (fun c => isspace c = false) a -> Forall (fun c => isspace c = false) a' ->
  (nl = [] \/ nl = [newline]) -> (nl' = [] \/ nl' = [newline]) ->
  a ++ nl = a' ++ nl' -> a = a' /\ nl = nl'.
Proof.
  intros Ha Ha' [-> | ->] [-> | ->] Heq.
  - rewrite !app_nil_r in Heq. done.
  - rewrite app_nil_r in Heq. subst a. apply Forall_app in Ha as [_ Ha].
    by inversion Ha.
  - rewrite app_nil_r in Heq. subst a'. apply Forall_app in Ha' as [_ Ha'].
    by inversion Ha'.
  - by apply app_inv_tail in Heq as ->.
Qed.

Lemma dropwhile_stop (p : ascii -> bool) (c : ascii) (s : str) :
  p c = false -> dropwhile p (c :: s) = c :: s.
Proof. intros Hc. simpl. by rewrite Hc. Qed.

(** [strip] removes the final newline of a header and nothing else. *)
Lemma strip_header (name_ dtype_ : str) (rank_ : ascii) (fields : list str) (nl : str) :
  Forall digits fields -> (nl = [] \/ nl = [newline]) ->
  strip (header_text name_ dtype_ rank_ fields ++ nl)
  = header_text name_ dtype_ rank_ fields.
Proof.
  intros Hf Hnl. unfold strip, header_text.
  rewrite <- app_comm_cons, dropwhile_stop by done.
  pose (front := "@"%char :: name_ ++ ":"%char :: dtype_ ++ ":"%char :: [rank_]).
  pose (tail := ":"%char :: join_comma fields).
  assert (("@"%char :: (name_ ++ ":"%char :: dtype_ ++ ":"%char :: rank_
             :: ":"%char :: join_comma fields) ++ nl) = front ++ tail ++ nl) as ->.
  { unfold front, tail. by repeat (progress (simpl; rewrite <- ?app_assoc)). }
  assert ("@"%char :: name_ ++ ":"%char :: dtype_ ++ ":"%char :: rank_
             :: ":"%char :: join_comma fields = front ++ tail) as ->.
  { unfold front, tail. by repeat (progress (simpl; rewrite <- ?app_assoc)). }
  assert (exists c t, rev tail = c :: t /\ isspace c = false) as (c & t & Ht & Hc).
  { assert (Forall (fun c => isspace c = false) (rev tail)) as Hall.
    { apply Forall_rev. unfold tail. constructor; [done|]. by apply join_comma_chars. }
    destruct (rev tail) as [|c t] eqn:E.
    - apply (f_equal (@length ascii)) in E. rewrite length_rev in E. done.
    - inversion Hall; subst. eauto. }
  rewrite !rev_app_distr, Ht.
  assert (dropwhile isspace ((rev nl ++ c :: t) ++ rev front) = (c :: t) ++ rev front) as ->.
  { destruct Hnl as [-> | ->]; simpl; by rewrite Hc. }
  rewrite <- Ht, <- rev_app_distr. apply rev_involutive.
Qed.

(** [_PAT_TAGLINE] reads the fields of a header as they were written. *)
Lemma match_header (name_ dtype_ : str) (rank_ : ascii) (fields : list str) (nl : str) :
  header_fields name_ dtype_ rank_ fields ->
  (nl = [] \/ nl = [newline]) ->
  Re.match_ _PAT_TAGLINE (header_text name_ dtype_ rank_ fields ++ nl)
  = Some [("shape", join_comma fields); ("rank", [rank_]);
          ("dtype", dtype_); ("name", name_)].
Proof.
  intros (Hn1 & Hn2 & Hd1 & Hd2 & Hr & Hf) Hnl.
  destruct (Re.match_ _PAT_TAGLINE (header_text name_ dtype_ rank_ fields ++ nl))
    as [m|] eqn:Hm.
  2:{ exfalso. apply ReFacts.match_None in Hm. apply Hm, PAT_TAGLINE_matches.
      exists name_, [], dtype_, rank_, fields, nl. unfold header_text. simpl.
      split_and!; try done.
      - by repeat (progress (simpl; rewrite <- ?app_assoc)).
      - eapply Forall_impl; [exact Hn2|]. intros c [Hc Hs]. split; [done|].
        by intros ->. }
  apply PAT_TAGLINE_groups in Hm
    as (name' & ws & dtype' & rank' & fields' & nl' & Heq & _ & Hn2' & Hws & _
        & Hd2' & _ & Hf' & Hnl' & ->).
  unfold header_text in Heq. simpl in Heq. injection Heq as Heq.
  rewrite <- !app_assoc in Heq. simpl in Heq.
  rewrite (app_assoc name' ws) in Heq.
  apply colon_split in Heq as [Hname Heq].
  2:{ eapply Forall_impl; [exact Hn2|]. by intros c [Hc _]. }
  2:{ apply Forall_app. split.
      - eapply Forall_impl; [exact Hn2'|]. by intros c [Hc _].
      - eapply Forall_impl; [exact Hws|]. by intros c Hc ->. }
  rewrite <- !app_assoc in Heq. simpl in Heq.
  apply colon_split in Heq as [<- Heq]; [|done|done].
  injection Heq as <- Heq.
  apply shape_newline_split in Heq as [<- <-];
    [|by apply join_comma_chars|by apply join_comma_chars|done|done].
  assert (ws = []) as ->.
  { subst name_. apply Forall_app in Hn2 as [_ Hn2].
    destruct ws as [|c ws]; [done|].
    inversion Hn2 as [|? ? [_ Hc] _]; inversion Hws; subst. congruence. }
  rewrite app_nil_r in Hname. by subst name'.
Qed.

End HeaderFields.

(** A header of the specification's grammar is cut at its colons. *)
Lemma spec_header_split (n d r sh name_ dtype_ rank_ : str) (fields : list str) :
  Forall (fun x => x <> ":"%char) n ->
  Forall (fun x => x <> ":"%char) d ->
  Forall (fun x => x <> ":"%char) r ->
  spec_header_of name_ dtype_ rank_ fields
    ("@"%char :: n ++ ":"%char :: d ++ ":"%char :: r ++ ":"%char :: sh) ->
  name_ = n /\ dtype_ = d /\ rank_ = r /\ join_comma fields = sh.
Proof.
  intros Hn' Hd' Hr' (Heq & _ & Hn & _ & Hd & [_ Hr] & _).
  injection Heq as Heq.
  apply colon_split in Heq as [-> Heq];
    [|done|by eapply Forall_impl; [exact Hn|]; intros ? []].
  apply colon_split in Heq as [-> Heq]; [|done|done].
  apply colon_split in Heq as [-> Heq]; [done|done|].
  eapply Forall_impl; [exact Hr|]. intros c Hc.
  by apply (isdigit_not c ":"%char).
Qed.

(** C5, as the specification words it, fails in both directions.  A header
    with rank 10 and ten positive dimensions is of the specified form and is
    rejected by the grammar check.  Five lines that are not of the specified
    form are not rejected with "Invalid tag format": with a shape at rank 0,
    with a dimension 0, with a space after the name and with a final newline
    an entry is built; with fewer dimensions than the rank the construction
    fails later, with another message. *)
Lemma C5_spec_grammar_differs :
  let init := @TaggedEntry_init Literal.carriers Literal.numpy in
  (spec_header Sample.rank_ten
   /\ init Sample.rank_ten (PList [Sample.line "1.0"])
      = Raise (InvalidEntryError 0 0 (lit "Invalid tag format")))
  /\ (~ spec_header Sample.scalar_with_shape
      /\ exists entry,
           init Sample.scalar_with_shape (PList [Sample.line " T"]) = Ok entry
           /\ rank entry = 0 /\ shape entry = [])
  /\ (~ spec_header Sample.zero_dimension
      /\ exists entry,
           init Sample.zero_dimension (PList []) = Ok entry
           /\ rank entry = 1 /\ shape entry = [0])
  /\ (~ spec_header Sample.spaced_name
      /\ exists entry,
           init Sample.spaced_name (PList [Sample.line " T"]) = Ok entry
           /\ name entry = lit "a")
  /\ (~ spec_header Sample.with_newline
      /\ exists entry,
           init Sample.with_newline (PList [Sample.line " T"]) = Ok entry
           /\ tagline entry = lit "@a:logical:0:")
  /\ (~ spec_header Sample.short_shape
      /\ init Sample.short_shape (PList [Sample.line " T F T"])
         = Raise (InvalidEntryError 0 0 (lit "Incompatible rank and shape"))).
Proof.
  intros init.
  split; [exact rank_ten_rejected|].
  split_and!.
  - intros (name_ & dtype_ & rank_ & fields & Hspec).
    pose proof Hspec as (_ & _ & _ & _ & _ & _ & _ & _ & Hlen).
    apply (spec_header_split (lit "a") (lit "logical") (lit "0") (lit "5"))
      in Hspec as (_ & _ & -> & Hsh); [|by repeat constructor..].
    vm_compute in Hlen. injection Hlen as Hlen.
    destruct fields; [discriminate Hsh | discriminate Hlen].
  - eexists. split; [vm_compute; reflexivity|]. split; reflexivity.
  - intros (name_ & dtype_ & rank_ & fields & Hspec).
    pose proof Hspec as (_ & _ & _ & _ & _ & _ & _ & Hpos & _).
    apply (spec_header_split (lit "a") (lit "logical") (lit "1") (lit "0"))
      in Hspec as (_ & _ & _ & Hsh); [|by repeat constructor..].
    destruct fields as [|[|c d] rest]; [discriminate Hsh| |].
    + destruct rest; discriminate Hsh.
    + injection Hsh as -> Hsh. destruct d; [|discriminate Hsh].
      apply Forall_cons in Hpos as [(n & Hn & Hlt) _].
      vm_compute in Hn. injection Hn as <-. lia.
  - eexists. split; [vm_compute; reflexivity|]. split; reflexivity.
  - intros (name_ & dtype_ & rank_ & fields & Hspec).
    pose proof Hspec as (_ & _ & Hname & _).
    apply (spec_header_split (lit "a ") (lit "logical") (lit "0") [])
      in Hspec as (-> & _); [|by repeat constructor..].
    apply Forall_cons in Hname as [_ Hname].
    apply Forall_cons in Hname as [[_ Hsp] _]. done.
  - eexists. split; [vm_compute; reflexivity|]. reflexivity.
  - intros (name_ & dtype_ & rank_ & fields & Hspec).
    pose proof Hspec as (_ & _ & _ & _ & _ & _ & _ & _ & Hlen).
    apply (spec_header_split (lit "a") (lit "logical") (lit "0") [newline])
      in Hspec as (_ & _ & -> & Hsh); [|by repeat constructor..].
    vm_compute in Hlen. injection Hlen as Hlen.
    destruct fields; [discriminate Hsh | discriminate Hlen].
  - eexists. split; [vm_compute; reflexivity|]. reflexivity.
  - intros (name_ & dtype_ & rank_ & fields & Hspec).
    pose proof Hspec as (_ & _ & _ & _ & _ & _ & _ & _ & Hlen).
    apply (spec_header_split (lit "a") (lit "logical") (lit "2") (lit "3"))
      in Hspec as (_ & _ & -> & Hsh); [|by repeat constructor..].
    vm_compute in Hlen. injection Hlen as Hlen.
    destruct fields as [|[|c d] [|d2 rest]]; try discriminate.
    injection Hsh as _ Hsh. destruct d; discriminate Hsh.
  - vm_compute. reflexivity.
Qed.

(* ===================================================================== *)
(** ** What [TaggedEntry] makes of a header *)
(* ===================================================================== *)

Section EntryFields.
Context `{Numpy}.

Lemma _CONVERTERS_known (dtype_ : str) (conv : Converter) :
  _CONVERTERS !! dtype_ = Some conv -> known_dtype dtype_ /\ nolist conv = false.
Proof.
  unfold _CONVERTERS, known_dtype. simpl. intros Hconv.
  repeat (apply lookup_insert_Some in Hconv as [[<- <-]|[_ Hconv]]; [by auto|]).
  by rewrite lookup_empty in Hconv.
Qed.

Lemma _CONVERTERS_unknown (dtype_ : str) :
  ~ known_dtype dtype_ -> _CONVERTERS !! dtype_ = None.
Proof.
  intros Hunknown. destruct (_CONVERTERS !! dtype_) as [conv|] eqn:E; [|done].
  by apply _CONVERTERS_known in E as [Hk _].
Qed.

Lemma check_shape_Ok (shape_ : list nat) (rank_ : nat) (c : converted) :
  check_shape shape_ rank_ c = Ok tt -> length shape_ = rank_.
Proof.
  unfold check_shape. destruct shape_ as [|x rest].
  - destruct (rank_ =? 0) eqn:E; [|done]. by apply Nat.eqb_eq in E.
  - destruct (length (x :: rest) =? rank_) eqn:E; [|done]. by apply Nat.eqb_eq in E.
Qed.

Lemma np_reshape_Ok (c : converted) (shape_ : list nat) (a : ndarray) :
  np_reshape c shape_ = Ok a ->
  nd_shape a = shape_ /\ array_len (nd_flat a) = fold_right Nat.mul 1 shape_.
Proof.
  unfold np_reshape. destruct (_ =? _) eqn:E; [|done].
  intros [= <-]. simpl. by apply Nat.eqb_eq in E.
Qed.

Lemma fold_left_mul (rest : list nat) (x : nat) :
  fold_left Nat.mul rest x = fold_right Nat.mul 1 (x :: rest).
Proof.
  revert x. induction rest as [|y rest IH]; intros x; simpl; [lia|].
  rewrite IH. simpl. lia.
Qed.

(** Every entry that is constructed is consistent: its tag line is the
    stripped header, its dtype is one of the four, its rank is a single
    digit, its shape has [rank] dimensions, and its data hold as many values
    as the shape says (one for a scalar). *)
Theorem TaggedEntry_consistent (tagline_ : str) (data_ : pyarg) (entry : TaggedEntry) :
  TaggedEntry_init tagline_ data_ = Ok entry ->
  tagline entry = strip tagline_
  /\ name entry <> []
  /\ known_dtype (dtype entry)
  /\ rank entry < 10
  /\ length (shape entry) = rank entry
  /\ nd_shape (data entry) = shape entry
  /\ array_len (nd_flat (data entry)) = fold_right Nat.mul 1 (shape entry).
Proof.
  unfold TaggedEntry_init.
  destruct (Re.match_ _PAT_TAGLINE tagline_) as [m|] eqn:Hm; [|done].
  apply PAT_TAGLINE_groups in Hm
    as (name_ & ws & dtype_ & rank_ & fields & nl & _ & Hn & _ & _ & _ & _ & Hr
        & _ & _ & ->).
  simpl. rewrite (int_one_digit rank_ Hr). simpl.
  intros Hinit.
  apply bind_Ok in Hinit as (shape_ & _ & Hinit).
  destruct (_CONVERTERS !! dtype_) as [conv|] eqn:Hconv; [|done].
  apply bind_Ok in Hinit as (c & _ & Hinit).
  apply bind_Ok in Hinit as ([] & Hcheck & Hinit).
  apply bind_Ok in Hinit as (a & Ha & [= <-]). simpl.
  apply check_shape_Ok in Hcheck. apply np_reshape_Ok in Ha as [Ha1 Ha2].
  apply _CONVERTERS_known in Hconv as [Hk _].
  split_and!; try done. by apply digit_val_lt.
Qed.

(** The fields of the header are the attributes of the entry: name and
    dtype as written, the rank its digit, the shape the numbers listed (and
    no shape at all when the rank is 0, whatever is listed), the tag line
    the header without its newline. *)
Theorem TaggedEntry_header_fields (name_ dtype_ : str) (rank_ : ascii)
    (fields : list str) (nl : str) (data_ : pyarg) (entry : TaggedEntry) :
  header_fields name_ dtype_ rank_ fields ->
  (nl = [] \/ nl = [newline]) ->
  TaggedEntry_init (header_text name_ dtype_ rank_ fields ++ nl) data_ = Ok entry ->
  name entry = name_
  /\ dtype entry = dtype_
  /\ rank entry = digit_val rank_
  /\ shape entry = (if digit_val rank_ =? 0 then [] else map digits_value fields)
  /\ tagline entry = header_text name_ dtype_ rank_ fields.
Proof.
  intros Hfields Hnl. unfold TaggedEntry_init.
  rewrite (match_header _ _ _ _ _ Hfields Hnl).
  destruct Hfields as (_ & _ & _ & _ & Hr & Hf).
  simpl. rewrite (int_one_digit rank_ Hr). simpl.
  intros Hinit.
  apply bind_Ok in Hinit as (shape_ & Hshape & Hinit).
  destruct (_CONVERTERS !! dtype_) as [conv|]; [|done].
  apply bind_Ok in Hinit as (c & _ & Hinit).
  apply bind_Ok in Hinit as ([] & _ & Hinit).
  apply bind_Ok in Hinit as (a & _ & [= <-]). simpl.
  split_and!; try done.
  - destruct (digit_val rank_) as [|n]; simpl in *; [by injection Hshape as <-|].
    destruct fields as [|d rest]; [done|].
    rewrite split_join_comma in Hshape by done.
    rewrite mapM_int_digits in Hshape by done. by injection Hshape as <-.
  - by apply strip_header.
Qed.

(** Two entries built from the same header line are comparable, whatever
    their data. *)
Theorem same_header_comparable (tagline_ : str) (d1 d2 : pyarg) (e1 e2 : TaggedEntry) :
  TaggedEntry_init tagline_ d1 = Ok e1 ->
  TaggedEntry_init tagline_ d2 = Ok e2 ->
  iscomparable e1 e2 = true.
Proof.
  unfold TaggedEntry_init.
  destruct (Re.match_ _PAT_TAGLINE tagline_) as [m|]; [|done].
  intros H1 H2.
  apply bind_Ok in H1 as (rank_ & Hrank & H1).
  apply bind_Ok in H2 as (rank' & Hrank' & H2).
  assert (rank' = rank_) as -> by congruence.
  apply bind_Ok in H1 as (shape_ & Hshape & H1).
  apply bind_Ok in H2 as (shape' & Hshape' & H2).
  assert (shape' = shape_) as -> by congruence.
  destruct (_CONVERTERS !! _) as [conv|]; [|done].
  apply bind_Ok in H1 as (c1 & _ & H1). apply bind_Ok in H1 as ([] & _ & H1).
  apply bind_Ok in H1 as (a1 & _ & [= <-]).
  apply bind_Ok in H2 as (c2 & _ & H2). apply bind_Ok in H2 as ([] & _ & H2).
  apply bind_Ok in H2 as (a2 & _ & [= <-]).
  unfold iscomparable. simpl. by rewrite !bool_decide_eq_true_2.
Qed.

(** A header that announces dimensions and lists none does not end in an
    [InvalidEntryError]: [int] of the empty shape text raises [ValueError],
    whatever the dtype and the data. *)
Theorem missing_shape_raises (name_ dtype_ : str) (rank_ : ascii) (nl : str)
    (data_ : pyarg) :
  header_fields name_ dtype_ rank_ [] ->
  (nl = [] \/ nl = [newline]) ->
  0 < digit_val rank_ ->
  TaggedEntry_init (header_text name_ dtype_ rank_ [] ++ nl) data_ = Raise ValueError.
Proof.
  intros Hfields Hnl Hrank. unfold TaggedEntry_init.
  rewrite (match_header _ _ _ _ _ Hfields Hnl).
  destruct Hfields as (_ & _ & _ & _ & Hr & _).
  simpl. rewrite (int_one_digit rank_ Hr). simpl.
  destruct (digit_val rank_); [lia | done].
Qed.

(** A dtype other than the four is reported with its name, before the data
    are looked at. *)
Theorem unknown_dtype_raises (name_ dtype_ : str) (rank_ : ascii)
    (fields : list str) (nl : str) (data_ : pyarg) :
  header_fields name_ dtype_ rank_ fields ->
  (nl = [] \/ nl = [newline]) ->
  (digit_val rank_ = 0 \/ fields <> []) ->
  ~ known_dtype dtype_ ->
  TaggedEntry_init (header_text name_ dtype_ rank_ fields ++ nl) data_
  = Raise (InvalidEntryError 0 0 (lit "Invalid data dtype '" ++ dtype_ ++ lit "'")).
Proof.
  intros Hfields Hnl Hshape Hunknown. unfold TaggedEntry_init.
  rewrite (match_header _ _ _ _ _ Hfields Hnl).
  destruct Hfields as (_ & _ & _ & _ & Hr & Hf).
  simpl. rewrite (int_one_digit rank_ Hr). simpl.
  rewrite (_CONVERTERS_unknown _ Hunknown).
  destruct (digit_val rank_) as [|n]; simpl; [done|].
  destruct Hshape as [|Hne]; [done|].
  rewrite split_join_comma, mapM_int_digits by done. done.
Qed.

(** The outcome for an array header whose data convert to [a]: the shape
    must have [rank] dimensions, then the values must be as many as the
    product of the shape, and then the entry is built, row-major data
    unchanged. *)
Theorem array_outcome (name_ dtype_ : str) (rank_ : ascii) (fields : list str)
    (nl : str) (data_ : pyarg) (conv : Converter) (a : array) :
  header_fields name_ dtype_ rank_ fields ->
  (nl = [] \/ nl = [newline]) ->
  0 < digit_val rank_ -> fields <> [] ->
  _CONVERTERS !! dtype_ = Some conv ->
  call conv data_ = Ok (CArray a) ->
  TaggedEntry_init (header_text name_ dtype_ rank_ fields ++ nl) data_
  = if negb (length fields =? digit_val rank_)
    then Raise (InvalidEntryError 0 0 (lit "Incompatible rank and shape"))
    else if negb (array_len a =? fold_right Nat.mul 1 (map digits_value fields))
    then Raise (InvalidEntryError 0 0 (lit "Invalid nr. of values"))
    else Ok {| tagline := header_text name_ dtype_ rank_ fields;
               name := name_; dtype := dtype_; rank := digit_val rank_;
               shape := map digits_value fields;
               data := {| nd_shape := map digits_value fields; nd_flat := a |} |}.
Proof.
  intros Hfields Hnl Hrank Hne Hconv Hcall. unfold TaggedEntry_init.
  rewrite (match_header _ _ _ _ _ Hfields Hnl), (strip_header _ _ _ _ _)
    by (done || apply Hfields).
  destruct Hfields as (_ & _ & _ & _ & Hr & Hf).
  simpl. rewrite (int_one_digit rank_ Hr). simpl.
  destruct (digit_val rank_) as [|n] eqn:En; [lia|]. simpl.
  rewrite split_join_comma, mapM_int_digits by done. simpl.
  rewrite Hconv. unfold convert_data. rewrite Hcall. simpl.
  unfold check_shape. destruct fields as [|d rest]; [done|].
  rewrite length_map. cbn [map].
  destruct (length (d :: rest) =? S n); cbn [negb]; [|done].
  cbn [len reduce_mul mbind result_bind]. rewrite fold_left_mul.
  change (digits_value d :: map digits_value rest)
    with (map digits_value (d :: rest)).
  destruct (array_len a =? _) eqn:E; cbn [negb mbind result_bind]; [|done].
  unfold np_reshape. cbn [nd_flat]. by rewrite E.
Qed.

(** A conversion error becomes an [InvalidEntryError] with the same
    message. *)
Theorem conversion_error_reraised (name_ dtype_ : str) (rank_ : ascii)
    (fields : list str) (nl : str) (data_ : pyarg) (conv : Converter) (msg : str) :
  header_fields name_ dtype_ rank_ fields ->
  (nl = [] \/ nl = [newline]) ->
  (digit_val rank_ = 0 \/ fields <> []) ->
  _CONVERTERS !! dtype_ = Some conv ->
  call conv data_ = Raise (ConversionError msg) ->
  TaggedEntry_init (header_text name_ dtype_ rank_ fields ++ nl) data_
  = Raise (InvalidEntryError 0 0 msg).
Proof.
  intros Hfields Hnl Hshape Hconv Hcall. unfold TaggedEntry_init.
  rewrite (match_header _ _ _ _ _ Hfields Hnl).
  destruct Hfields as (_ & _ & _ & _ & Hr & Hf).
  simpl. rewrite (int_one_digit rank_ Hr). simpl.
  assert (exists shape_,
            (if 0 <? digit_val rank_
             then mapM int_ (split_on "," (join_comma fields)) else Ok [])
            = Ok shape_) as [shape_ ->].
  { destruct (digit_val rank_) as [|n]; simpl; [by eexists|].
    destruct Hshape as [|Hne]; [done|].
    rewrite split_join_comma, mapM_int_digits by done. by eexists. }
  simpl. rewrite Hconv. unfold convert_data. by rewrite Hcall.
Qed.

End EntryFields.

(* ===================================================================== *)
(** ** The index of a collection *)
(* ===================================================================== *)

Section CollectionIndex.
Context `{Numpy}.

(** Every recorded position lies inside the sequence, and the names of the
    index are those of the entries. *)
Lemma extend_index (self : TaggedCollection) (entries : list TaggedEntry) :
  size (_names self) <= length (_entries self) ->
  (forall name_ i, _names self !! name_ = Some i -> i < length (_entries self)) ->
  (forall name_, is_Some (_names self !! name_) <-> name_ ∈ map name (_entries self)) ->
  let self' := extend self entries in
  size (_names self') <= length (_entries self')
  /\ (forall name_ i, _names self' !! name_ = Some i -> i < length (_entries self'))
  /\ (forall name_, is_Some (_names self' !! name_) <-> name_ ∈ map name (_entries self')).
Proof.
  revert self. induction entries as [|entry entries IH]; intros self Hsize Hbound Hdom.
  - done.
  - simpl. apply IH; simpl.
    + rewrite length_app. simpl.
      destruct (_names self !! name entry) eqn:E.
      * rewrite map_size_insert_Some by eauto. lia.
      * rewrite map_size_insert_None by done. lia.
    + intros name_ i Hi. rewrite length_app. simpl.
      apply lookup_insert_Some in Hi as [[_ <-]|[_ Hi]]; [lia|].
      apply Hbound in Hi. lia.
    + intros name_. rewrite map_app, elem_of_app. simpl.
      rewrite list_elem_of_singleton, <- Hdom.
      destruct (decide (name entry = name_)) as [<-|Hne].
      * rewrite lookup_insert_eq. split; [by right | by eexists].
      * rewrite lookup_insert_ne by done. split; [by left | by intros [?|?]].
Qed.

(** [get] on a constructed collection never raises: it returns an entry of
    the collection, or nothing exactly when no entry bears the name. *)
Theorem get_never_raises (entries : list TaggedEntry) (name_ : str) :
  exists r,
    get (TaggedCollection_init entries) name_ = Ok r
    /\ (r = None <-> name_ ∉ map name entries)
    /\ (forall entry, r = Some entry -> entry ∈ entries).
Proof.
  destruct (extend_index {| _names := ∅; _entries := [] |} entries)
    as (_ & Hbound & Hdom); simpl.
  - by rewrite map_size_empty.
  - intros ? ? Hx. by rewrite lookup_empty in Hx.
  - intros n. rewrite lookup_empty. split; [by intros [? ?] | by intros ?%elem_of_nil].
  - fold (TaggedCollection_init entries) in Hbound, Hdom.
    assert (_entries (TaggedCollection_init entries) = entries) as Hentries
      by apply extend_entries.
    rewrite Hentries in Hbound, Hdom. unfold get. rewrite Hentries.
    destruct (_names (TaggedCollection_init entries) !! name_) as [ii|] eqn:E.
    + pose proof (Hbound _ _ E) as Hlt.
      apply lookup_lt_is_Some in Hlt as [entry Hentry]. rewrite Hentry.
      exists (Some entry). split_and!; [done | |].
      * split; [done|]. intros Hnot. exfalso. apply Hnot, Hdom. by eexists.
      * intros ? [= <-]. by eapply list_elem_of_lookup_2.
    + exists None. split_and!; [done | | done].
      split; [|done]. intros _ Hin. apply Hdom in Hin as [? ?]. congruence.
Qed.

(** Adding an entry with a new name keeps the index in step. *)
Lemma extend1_in_step (self : TaggedCollection) (entry : TaggedEntry) :
  in_step self -> _names self !! name entry = None -> in_step (extend1 self entry).
Proof.
  intros [Hsize Hidx] Hfresh. split; simpl.
  - rewrite map_size_insert_None by done. rewrite length_app. simpl. lia.
  - intros name_ i. rewrite Hsize.
    destruct (decide (name entry = name_)) as [<-|Hne].
    + rewrite lookup_insert_eq. split.
      * intros [= <-]. exists entry. split; [|done].
        by rewrite lookup_app_r, Nat.sub_diag.
      * intros (e' & He' & Hname).
        destruct (decide (i < length (_entries self))) as [Hlt|Hge].
        -- rewrite lookup_app_l in He' by done.
           assert (_names self !! name entry = Some i) as Hi by (apply Hidx; eauto).
           congruence.
        -- apply lookup_lt_Some in He' as Hi. rewrite length_app in Hi.
           simpl in Hi. f_equal. lia.
    + rewrite lookup_insert_ne by done. rewrite Hidx. split.
      * intros (e' & He' & Hname). exists e'. split; [|done].
        apply lookup_app_l_Some. done.
      * intros (e' & He' & Hname). exists e'. split; [|done].
        destruct (decide (i < length (_entries self))) as [Hlt|Hge].
        -- by rewrite lookup_app_l in He'.
        -- rewrite lookup_app_r in He' by lia.
           destruct (i - length (_entries self)) as [|k]; simpl in He'.
           ++ injection He' as <-. done.
           ++ by destruct k.
Qed.

(** Entries with pairwise different names keep the index in step. *)
Lemma extend_in_step (self : TaggedCollection) (entries : list TaggedEntry) :
  in_step self ->
  NoDup (map name (_entries self ++ entries)) ->
  in_step (extend self entries).
Proof.
  revert self. induction entries as [|entry entries IH]; intros self Hstep Hnodup.
  - done.
  - simpl. apply IH.
    + apply extend1_in_step; [done|].
      destruct (_names self !! name entry) as [i|] eqn:E; [|done].
      apply Hstep in E as (e' & He' & Hname).
      rewrite map_app in Hnodup. apply NoDup_app in Hnodup as (_ & Hdisj & _).
      exfalso. apply (Hdisj (name entry)).
      * rewrite <- Hname. apply list_elem_of_fmap_2. by eapply list_elem_of_lookup_2.
      * simpl. left.
    + simpl. by rewrite <- app_assoc.
Qed.

Lemma TaggedCollection_init_in_step (entries : list TaggedEntry) :
  NoDup (map name entries) -> in_step (TaggedCollection_init entries).
Proof.
  intros Hnodup. apply extend_in_step; [|done].
  split; simpl; [by rewrite map_size_empty|].
  intros n i. rewrite lookup_empty. split; [done | by intros (? & ? & _)].
Qed.

(** With pairwise different names, each name leads to its own entry. *)
Theorem get_distinct_names (entries : list TaggedEntry) (i : nat) (entry : TaggedEntry) :
  NoDup (map name entries) ->
  entries !! i = Some entry ->
  get (TaggedCollection_init entries) (name entry) = Ok (Some entry).
Proof.
  intros Hnodup Hentry.
  destruct (TaggedCollection_init_in_step entries Hnodup) as [_ Hidx].
  assert (_entries (TaggedCollection_init entries) = entries) as Hentries
    by apply extend_entries.
  rewrite Hentries in Hidx. unfold get. rewrite Hentries.
  assert (_names (TaggedCollection_init entries) !! name entry = Some i) as ->
    by (apply Hidx; eauto).
  by rewrite Hentry.
Qed.

(** What [remove] leaves behind for an indexed name: the call raises, but
    not before it has dropped the name and deleted the entry at the recorded
    position. *)
Theorem remove_state (self : TaggedCollection) (name_ : str) (ii : nat) :
  _names self !! name_ = Some ii ->
  ii < length (_entries self) ->
  (remove self name_).1 = Raise AttributeError
  /\ _names (remove self name_).2 = delete name_ (_names self)
  /\ _entries (remove self name_).2 = delete ii (_entries self)
  /\ length (_entries (remove self name_).2) = length (_entries self) - 1
  /\ get (remove self name_).2 name_ = Ok None.
Proof.
  intros E Hlt. unfold remove. rewrite E.
  assert ((ii <? length (_entries self)) = true) as ->
    by by apply Nat.ltb_lt.
  simpl. split_and!; try done.
  - rewrite length_delete by by apply lookup_lt_is_Some. lia.
  - unfold get. simpl. by rewrite lookup_delete_eq.
Qed.

(** After the removal of an entry, the positions recorded for the entries
    behind it are one too high: a later name leads to the entry that followed
    its own, or out of the sequence. *)
Theorem remove_shifts_later (entries : list TaggedEntry) (i j : nat)
    (ei ej : TaggedEntry) :
  NoDup (map name entries) ->
  entries !! i = Some ei ->
  entries !! j = Some ej ->
  i < j ->
  get (remove (TaggedCollection_init entries) (name ei)).2 (name ej)
  = match entries !! S j with
    | Some entry => Ok (Some entry)
    | None => Raise IndexError
    end.
Proof.
  intros Hnodup Hi Hj Hlt.
  destruct (TaggedCollection_init_in_step entries Hnodup) as [_ Hidx].
  assert (_entries (TaggedCollection_init entries) = entries) as Hentries
    by apply extend_entries.
  rewrite Hentries in Hidx.
  assert (_names (TaggedCollection_init entries) !! name ei = Some i) as Hni
    by (apply Hidx; eauto).
  assert (_names (TaggedCollection_init entries) !! name ej = Some j) as Hnj
    by (apply Hidx; eauto).
  assert (name ei <> name ej) as Hne.
  { intros Heq. rewrite Heq in Hni. rewrite Hni in Hnj. injection Hnj as ->. lia. }
  unfold remove. rewrite Hni, Hentries.
  assert ((i <? length entries) = true) as ->.
  { apply Nat.ltb_lt. by eapply lookup_lt_Some. }
  unfold get. simpl. rewrite lookup_delete_ne by done. rewrite Hnj.
  rewrite list_lookup_delete_ge by lia. done.
Qed.

(** The entries in front of a removed one are still found. *)
Theorem remove_keeps_earlier (entries : list TaggedEntry) (i j : nat)
    (ei ej : TaggedEntry) :
  NoDup (map name entries) ->
  entries !! i = Some ei ->
  entries !! j = Some ej ->
  j < i ->
  get (remove (TaggedCollection_init entries) (name ei)).2 (name ej) = Ok (Some ej).
Proof.
  intros Hnodup Hi Hj Hlt.
  destruct (TaggedCollection_init_in_step entries Hnodup) as [_ Hidx].
  assert (_entries (TaggedCollection_init entries) = entries) as Hentries
    by apply extend_entries.
  rewrite Hentries in Hidx.
  assert (_names (TaggedCollection_init entries) !! name ei = Some i) as Hni
    by (apply Hidx; eauto).
  assert (_names (TaggedCollection_init entries) !! name ej = Some j) as Hnj
    by (apply Hidx; eauto).
  assert (name ei <> name ej) as Hne.
  { intros Heq. rewrite Heq in Hni. rewrite Hni in Hnj. injection Hnj as ->. lia. }
  unfold remove. rewrite Hni, Hentries.
  assert ((i <? length entries) = true) as ->.
  { apply Nat.ltb_lt. by eapply lookup_lt_Some. }
  unfold get. simpl. rewrite lookup_delete_ne by done. rewrite Hnj.
  rewrite list_lookup_delete_lt by lia. by rewrite Hj.
Qed.

Lemma getitem_nat {A} (l : list A) (k : nat) (x : A) :
  l !! k = Some x -> getitem l (Z.of_nat k) = Ok x.
Proof.
  intros Hx. unfold getitem.
  assert ((Z.of_nat k <? 0)%Z = false) as Hneg by (apply Z.ltb_ge; lia).
  cbv zeta. rewrite !Hneg. by rewrite Nat2Z.id, Hx.
Qed.

(** Iterating over a collection produces its entries, in the order of the
    sequence, and then stops. *)
Lemma traverse_from (tagged : TaggedCollection) (k : nat) :
  forall fuel, length (_entries tagged) - k < fuel ->
  k <= length (_entries tagged) ->
  traverse fuel tagged (Z.of_nat k - 1)
  = Some (drop k (_entries tagged), StopIteration).
Proof.
  intros fuel. revert k. induction fuel as [|fuel IH]; intros k Hfuel Hk; [lia|].
  simpl. unfold TaggedCollectionIter_next.
  replace (Z.of_nat k - 1 + 1)%Z with (Z.of_nat k) by lia.
  destruct (Z.of_nat k <? Z.of_nat (length (_entries tagged)))%Z eqn:E.
  - apply Z.ltb_lt in E.
    destruct (_entries tagged !! k) as [entry|] eqn:Hentry.
    2:{ apply lookup_ge_None in Hentry. lia. }
    rewrite (getitem_nat _ _ _ Hentry).
    specialize (IH (S k)).
    replace (Z.of_nat (S k) - 1)%Z with (Z.of_nat k) in IH by lia.
    rewrite IH by lia. simpl.
    by rewrite (drop_S _ _ _ Hentry).
  - apply Z.ltb_ge in E. rewrite drop_ge by lia. done.
Qed.

Theorem traverse_all (tagged : TaggedCollection) :
  traverse (S (length (_entries tagged))) tagged TaggedCollectionIter_init
  = Some (_entries tagged, StopIteration).
Proof.
  apply (traverse_from tagged 0); lia.
Qed.

End CollectionIndex.

(* ===================================================================== *)
(** ** The converters *)
(* ===================================================================== *)

Section ConverterFacts.
Context `{Numpy}.

(** Reading the tokens of a text that continues after a blank. *)
Lemma split_from_blank (front rest cur : str) (c : ascii) :
  isspace c = true ->
  split_from cur (front ++ c :: rest)
  = split_from cur (front ++ [c]) ++ split_from [] rest.
Proof.
  intros Hc. revert cur. induction front as [|x front IH]; intros cur; simpl.
  - rewrite Hc. by destruct cur.
  - destruct (isspace x); [destruct cur|]; simpl; by rewrite ?IH.
Qed.

Lemma split_app_blank (line rest : str) :
  ends_blank line -> split (line ++ rest) = split line ++ split rest.
Proof.
  intros (front & c & -> & Hc). unfold split.
  rewrite <- app_assoc. simpl. by apply split_from_blank.
Qed.

Lemma split_concat (lines : list str) (last : str) :
  Forall ends_blank lines ->
  split (concat lines ++ last) = concat (map split lines) ++ split last.
Proof.
  induction 1 as [|line lines Hline _ IH]; simpl; [done|].
  rewrite <- !app_assoc, split_app_blank by done. by rewrite IH.
Qed.

(** A converter reads a list of lines as it reads their text in one block,
    when every line but the last ends with its newline: no token is split or
    merged at a line boundary. *)
Theorem lines_as_block (self : Converter) (lines : list str) (last : str) :
  Forall ends_blank lines ->
  Converter_call self (PList (lines ++ [last]))
  = Converter_call self (PStr (concat (lines ++ [last]))).
Proof.
  intros Hlines. unfold Converter_call.
  assert (concat (map split (lines ++ [last])) = split (concat (lines ++ [last])))
    as ->; [|done].
  rewrite map_app, !concat_app. simpl. rewrite !app_nil_r.
  by rewrite split_concat.
Qed.

Lemma convert_nil (self : Converter) :
  cls self <> ComplexConverter ->
  exists a, convert self [] = Ok a /\ array_len a = 0.
Proof.
  intros Hcls. unfold convert. destruct (cls self); [| |done|].
  - by exists (AFloat []).
  - by exists (AInt []).
  - by exists (ABool []).
Qed.

(** A single-value converter given a blank text does not raise a
    [ConversionError]: [result[0]] on the empty result raises [IndexError].
    The complex one reports "Too many values" for no value at all. *)
Theorem nolist_blank (self : Converter) (s : str) :
  nolist self = true ->
  split s = [] ->
  call self (PStr s)
  = match cls self with
    | ComplexConverter => Raise (ConversionError (lit "Too many values"))
    | _ => Raise IndexError
    end.
Proof.
  intros Hno Hs. unfold call, Converter_call, ComplexConverter_call.
  rewrite Hs, Hno. simpl.
  destruct (cls self) eqn:Ecls; try done;
    (destruct (convert_nil self) as (a & -> & Ha); [congruence|]);
    simpl; unfold deliver; rewrite Hno;
    destruct a as [[|? ?]|[|? ?]|[|? ?]|[|? ?]]; done.
Qed.

(** The logical converter accepts exactly the tokens T, t, F and f, and
    gives their truth values in order. *)
Theorem LogicalConverter_accepts (values : list str) (a : array) :
  LogicalConverter_convert values = Ok a
  <-> exists ll, a = ABool ll /\ Forall2 (fun val b => logical_value val = Some b) values ll.
Proof.
  unfold LogicalConverter_convert.
  assert (forall ll, LogicalConverter_loop values = Ok ll
                     <-> Forall2 (fun val b => logical_value val = Some b) values ll)
    as Hloop.
  { induction values as [|val values IH]; intros ll; simpl.
    - split; [intros [= <-]; constructor | by inversion 1].
    - unfold logical_value at 1. repeat case_decide.
      + destruct (LogicalConverter_loop values) as [l|e] eqn:E; simpl.
        * split.
          -- intros [= <-]. constructor; [|by apply IH].
             unfold logical_value. by rewrite decide_True.
          -- inversion 1 as [|? b ? l' Hb Hl]; subst.
             unfold logical_value in Hb. rewrite decide_True in Hb by done.
             injection Hb as <-. apply IH in Hl. by injection Hl as ->.
        * split; [done|]. inversion 1 as [|? b ? l' Hb Hl]; subst.
          by apply IH in Hl.
      + destruct (LogicalConverter_loop values) as [l|e] eqn:E; simpl.
        * split.
          -- intros [= <-]. constructor; [|by apply IH].
             unfold logical_value. by rewrite decide_False, decide_True.
          -- inversion 1 as [|? b ? l' Hb Hl]; subst.
             unfold logical_value in Hb.
             rewrite decide_False, decide_True in Hb by done.
             injection Hb as <-. apply IH in Hl. by injection Hl as ->.
        * split; [done|]. inversion 1 as [|? b ? l' Hb Hl]; subst.
          by apply IH in Hl.
      + split; [done|]. inversion 1 as [|? b ? l' Hb Hl]; subst.
        unfold logical_value in Hb. by rewrite !decide_False in Hb. }
  destruct (LogicalConverter_loop values) as [ll|e] eqn:E; simpl.
  - split.
    + intros [= <-]. exists ll. split; [done | by apply Hloop].
    + intros (ll' & -> & Hll). apply Hloop in Hll. by injection Hll as ->.
  - split; [done|]. intros (ll' & -> & Hll). by apply Hloop in Hll.
Qed.

(** The first token that is not a truth value is named in the error. *)
Theorem LogicalConverter_names_offender (good : list str) (bad : str) (rest : list str) :
  Forall (fun val => is_Some (logical_value val)) good ->
  logical_value bad = None ->
  LogicalConverter_convert (good ++ bad :: rest)
  = Raise (ConversionError (lit "Unable to convert '" ++ bad ++ lit "' to logical: ")).
Proof.
  intros Hgood Hbad. unfold LogicalConverter_convert.
  assert (LogicalConverter_loop (good ++ bad :: rest)
          = Raise (ConversionError
                     (lit "Unable to convert '" ++ bad ++ lit "' to logical: ")))
    as ->; [|done].
  induction Hgood as [|val good [b Hval] _ IH]; simpl.
  - unfold logical_value in Hbad. repeat case_decide; done.
  - unfold logical_value in Hval. rewrite IH. repeat case_decide; done.
Qed.

Lemma pair_ind {A} (P : list A -> Prop) :
  P [] -> (forall x, P [x]) -> (forall x y l, P l -> P (x :: y :: l)) ->
  forall l, P l.
Proof.
  intros Hnil Hone Hstep l.
  assert (P l /\ forall x, P (x :: l)) as [Hl _]; [|exact Hl].
  induction l as [|y l [IH1 IH2]]; [by split|].
  split; [apply IH2|]. intros x. by apply Hstep.
Qed.

Lemma evens_odds_length {A} (l : list A) :
  Nat.even (length l) = true -> length (evens l) = length (odds l).
Proof.
  induction l as [|x|x y l IH] using pair_ind; [done | done |].
  intros Heven. simpl in *. destruct l as [|z l]; [done|].
  simpl in *. by rewrite IH.
Qed.

Lemma zip_evens_odds (tmp : list real) :
  Nat.even (length tmp) = true ->
  zip_with make_complex (evens tmp) (odds tmp) = pairs tmp.
Proof.
  induction tmp as [|x|x y l IH] using pair_ind; [done | done |].
  intros Heven. simpl in *. rewrite <- IH by done. by destruct l.
Qed.

Lemma pairs_length (tmp : list real) :
  Nat.even (length tmp) = true -> 2 * length (pairs tmp) = length tmp.
Proof.
  induction tmp as [|x|x y l IH] using pair_ind; [done | done |].
  intros Heven. simpl in *. rewrite <- IH by done. lia.
Qed.

(** The complex converter on one block of text: an odd number of tokens is
    refused, and an even number [2n] of tokens that all convert gives the [n]
    complex numbers made of consecutive pairs. *)
Theorem ComplexConverter_block (s : str) (tmp : list real) :
  mapM float_of_str (split s) = Some tmp ->
  ComplexConverter_call {| cls := ComplexConverter; nolist := false |} (PStr s)
  = if Nat.even (length (split s))
    then Ok (CArray (AComplex (pairs tmp)))
    else Raise (ConversionError (lit "Complex converter needs even strings")).
Proof.
  intros Htmp. unfold ComplexConverter_call.
  assert (length tmp = length (split s)) as Hlen.
  { apply mapM_Some in Htmp. symmetry. by eapply Forall2_length. }
  destruct (Nat.even (length (split s))) eqn:Heven.
  - assert ((length (split s) mod 2 =? 0) = true) as ->.
    { apply Nat.eqb_eq. apply Nat.even_spec in Heven as [k ->].
      by rewrite Nat.mul_comm, Nat.Div0.mod_mul. }
    simpl. unfold convert, ComplexConverter_convert. simpl. rewrite Htmp. simpl.
    unfold broadcast_complex.
    rewrite <- Hlen in Heven.
    rewrite (evens_odds_length tmp Heven), Nat.eqb_refl.
    by rewrite zip_evens_odds.
  - assert ((length (split s) mod 2 =? 0) = false) as ->; [|done].
    apply Nat.eqb_neq. intros Hmod.
    apply Nat.Div0.mod_divides in Hmod as [k Hk].
    rewrite Hk in Heven. rewrite Nat.even_mul in Heven. done.
Qed.

End ConverterFacts.

(* ===================================================================== *)
(** ** More on the reader *)
(* ===================================================================== *)

Section ReaderFacts.
Context `{Numpy}.

Lemma readnext_parts (fp : stream) :
  Forall (fun line => line <> []) fp ->
  Forall (fun line => is_header line = false) (_readnext_tagline fp).1.1
  /\ ((_readnext_tagline fp).1.2 = []
        /\ fp = (_readnext_tagline fp).1.1 /\ (_readnext_tagline fp).2 = []
      \/ is_header (_readnext_tagline fp).1.2 = true
        /\ fp = (_readnext_tagline fp).1.1
                  ++ (_readnext_tagline fp).1.2 :: (_readnext_tagline fp).2).
Proof.
  induction 1 as [|line fp Hline Hfp [IH1 IH2]]; simpl.
  - split; [constructor | by left].
  - destruct line as [|c line]; [done|].
    change (startswith_at (c :: line)) with (is_header (c :: line)).
    destruct (is_header (c :: line)) eqn:Hh; simpl.
    + split; [constructor | by right].
    + destruct (_readnext_tagline fp) as [[lines tagline_] fp']. simpl in *.
      split; [by constructor|].
      destruct IH2 as [(-> & -> & ->)|[Hh' ->]]; [by left | by right].
Qed.

(** [_readnext_tagline] loses nothing: the lines it returns, none of them a
    header, then the header it stopped on, then what is left of the file, are
    the file it was given; at the end of the file all the lines are
    returned. *)
Theorem readnext_conserves (fp : stream) (lines : list str) (tagline_ : str)
    (fp' : stream) :
  Forall (fun line => line <> []) fp ->
  _readnext_tagline fp = (lines, tagline_, fp') ->
  Forall (fun line => is_header line = false) lines
  /\ (tagline_ = [] /\ fp = lines /\ fp' = []
      \/ is_header tagline_ = true /\ fp = lines ++ tagline_ :: fp').
Proof.
  intros Hfp Hread. pose proof (readnext_parts fp Hfp) as Hparts.
  rewrite Hread in Hparts. simpl in Hparts. exact Hparts.
Qed.

(** The reader starts with the index of the first header line. *)
Lemma TaggedReader_init_index (lines : stream) :
  Forall (fun line => line <> []) lines ->
  _lasttagline_ind (TaggedReader_init lines) = length (block_data lines)
  /\ (_lasttagline (TaggedReader_init lines) = []
      \/ lines = block_data lines ++ _lasttagline (TaggedReader_init lines)
                   :: _fp (TaggedReader_init lines)).
Proof.
  intros Hlines. unfold TaggedReader_init.
  destruct (readnext_blocks lines Hlines) as (header & fp' & Hread & _ & _).
  pose proof (readnext_parts lines Hlines) as [_ Hcons].
  rewrite Hread in Hcons |- *. simpl in *. split; [done|].
  destruct Hcons as [(-> & _)|[_ Heq]]; [by left | by right].
Qed.

(** When the first call of [next] raises an [InvalidEntryError], its start
    is the 1-based number of the first header line of the file, and its end
    is the start less one plus the number of data lines of the block. *)
Theorem first_error_lines (text : str) (s e : nat) (msg : str) :
  (next (TaggedReader_init (StringIO text))).1 = Raise (InvalidEntryError s e msg) ->
  exists header,
    1 <= s
    /\ StringIO text !! (s - 1) = Some header
    /\ is_header header = true
    /\ Forall (fun line => is_header line = false) (take (s - 1) (StringIO text))
    /\ e = (s - 1) + length (block_data (drop s (StringIO text))).
Proof.
  intros Hnext.
  pose proof (StringIO_nonempty text) as Hlines.
  set (lines := StringIO text) in *.
  destruct (TaggedReader_init_index lines Hlines) as [Hind Hcase].
  pose proof (readnext_parts lines Hlines) as [Hprose _].
  pose proof (TaggedReader_init_pending lines Hlines) as [_ Hfp].
  assert ((_readnext_tagline lines).1.1 = block_data lines) as Hbd.
  { destruct (readnext_blocks lines Hlines) as (? & ? & -> & _). done. }
  rewrite Hbd in Hprose.
  set (reader := TaggedReader_init lines) in *.
  destruct (_lasttagline reader) as [|c last] eqn:El.
  { unfold next in Hnext. by rewrite El in Hnext. }
  destruct Hcase as [|Heq]; [done|].
  destruct (readnext_blocks _ Hfp) as (header' & fp' & Hread & _ & _).
  rewrite (next_surfaced reader _ _ _ ltac:(by rewrite El) Hread) in Hnext.
  unfold surfaced in Hnext. rewrite El in Hnext.
  destruct (TaggedEntry_init _ _) as [entry|[]]; try done.
  injection Hnext as <- <- <-. rewrite Hind.
  assert (is_header (c :: last) = true) as Hheader.
  { destruct (readnext_blocks lines Hlines) as (h0 & f0 & Hr0 & _ & Hc0).
    unfold reader, TaggedReader_init in El. rewrite Hr0 in El. simpl in El.
    destruct Hc0 as [[-> _]|[Hh _]]; [done | by rewrite <- El]. }
  remember (block_data lines) as prose eqn:Hp. clear Hp.
  replace (length prose + 1 - 1) with (length prose) by lia.
  exists (c :: last). rewrite Heq. split_and!.
  - lia.
  - by apply list_lookup_middle.
  - done.
  - by rewrite take_app_length.
  - f_equal. f_equal.
    replace (length prose + 1) with (length (prose ++ [c :: last]))
      by (rewrite length_app; simpl; lia).
    rewrite (cons_middle (c :: last) prose (_fp reader)), app_assoc.
    symmetry. f_equal. apply drop_app_length.
Qed.

(** Iterating a reader comes to an end, whatever the file holds. *)
Lemma iterate_terminates (fuel : nat) :
  forall reader : TaggedReader,
    Forall (fun line => line <> []) (_fp reader) ->
    length (pending reader) < fuel ->
    exists entries e, iterate fuel reader = Some (entries, e).
Proof.
  induction fuel as [|fuel IH]; intros reader Hfp Hfuel; [lia|].
  simpl. destruct (next reader) as [[entry|e] reader'] eqn:Hnext; [|eauto].
  destruct (_lasttagline reader) as [|c last] eqn:El.
  { unfold next in Hnext. by rewrite El in Hnext. }
  assert (builds entry (_lasttagline reader, block_data (_fp reader))) as Hb.
  { destruct (readnext_blocks _ Hfp) as (h' & fp' & Hread & _ & _).
    pose proof (next_surfaced reader _ _ _ ltac:(by rewrite El) Hread) as Hs.
    rewrite Hnext in Hs. unfold surfaced in Hs. simpl in Hs.
    unfold builds. simpl.
    destruct (TaggedEntry_init _ _) as [entry'|[]]; by try done. }
  destruct (next_builds reader entry Hfp ltac:(by rewrite El) Hb)
    as (reader'' & Hnext' & Hfp' & Hpend).
  rewrite Hnext in Hnext'. injection Hnext' as <-.
  destruct (IH reader' Hfp') as (entries & e & ->).
  { rewrite Hpend. unfold pending in Hfuel. rewrite El in Hfuel. simpl in Hfuel. lia. }
  simpl. eauto.
Qed.

Theorem reader_terminates (text : str) :
  exists entries e,
    iterate (S (length (StringIO text))) (TaggedReader_init (StringIO text))
    = Some (entries, e).
Proof.
  destruct (TaggedReader_init_pending _ (StringIO_nonempty text)) as [Hpend Hfp].
  apply iterate_terminates; [done|].
  rewrite Hpend. pose proof (blocks_length (StringIO text)). lia.
Qed.

(** The construction of an entry never raises [StopIteration]. *)
Lemma TaggedEntry_init_no_stop (tagline_ : str) (data_ : pyarg) :
  TaggedEntry_init tagline_ data_ <> Raise StopIteration.
Proof.
  intros E. unfold TaggedEntry_init in E.
  destruct (Re.match_ _ _) as [m|]; [|done].
  apply bind_Raise in E as [E|(rank_ & _ & E)].
  { unfold int_ in E. by destruct (int_digits _). }
  apply bind_Raise in E as [E|(shape_ & _ & E)].
  { destruct (0 <? _); [|done]. by apply mapM_int_raises in E. }
  destruct (_CONVERTERS !! _) as [conv|]; [|done].
  apply bind_Raise in E as [E|(cv & _ & E)].
  { unfold convert_data in E.
    destruct (call _ _) as [?|e'] eqn:Ecall; [done|].
    apply call_raises in Ecall as [->|[->|(cc & mm & -> & _)]];
      simpl in E; discriminate E. }
  apply bind_Raise in E as [E|([] & _ & E)].
  { unfold check_shape, len, reduce_mul in E.
    destruct shape_ as [|d rest]; [by destruct (negb _)|].
    destruct (negb _); [done|]. destruct cv as [a|i]; [|done].
    unfold mbind, result_bind in E. by destruct (negb _). }
  apply bind_Raise in E as [E|(a & _ & E)]; [|done].
  by apply np_reshape_raises in E.
Qed.

(** Iteration produces the entries of the valid blocks in front of the
    first block that cannot be constructed, and ends with the error of that
    block as [next] raises it. *)
Lemma iterate_first_error (good : list (str * list str)) :
  forall (fuel : nat) (reader : TaggedReader) (bad : str * list str)
         (rest : list (str * list str)),
    Forall (fun line => line <> []) (_fp reader) ->
    pending reader = good ++ bad :: rest ->
    Forall valid_block good ->
    ~ valid_block bad ->
    length good < fuel ->
    exists entries e,
      iterate fuel reader = Some (entries, e)
      /\ Forall2 builds entries good
      /\ surfaced (_lasttagline_ind reader) bad.1 bad.2 = Raise e.
Proof.
  induction good as [|g good IH]; intros fuel reader bad rest Hfp Hpend Hgood Hbad Hfuel.
  - destruct fuel as [|fuel]; [simpl in Hfuel; lia|].
    unfold pending in Hpend.
    destruct (_lasttagline reader) as [|c last] eqn:El; [done|].
    simpl in Hpend. injection Hpend as <- _.
    destruct (readnext_blocks _ Hfp) as (h' & fp' & Hread & _ & _).
    pose proof (next_surfaced reader _ _ _ ltac:(by rewrite El) Hread) as Hs.
    rewrite El in Hs. simpl.
    destruct (surfaced _ _ _) as [entry|e] eqn:Hsurf.
    + exfalso. apply Hbad. exists entry. unfold builds. simpl.
      unfold surfaced in Hsurf.
      destruct (TaggedEntry_init _ _) as [entry'|[]]; by try done.
    + destruct (next reader) as [r reader']. simpl in Hs. subst r.
      exists [], e. split_and!; [done | constructor | done].
  - destruct fuel as [|fuel]; [simpl in Hfuel; lia|].
    inversion Hgood as [|? ? [entry Hentry] Hgood']; subst.
    unfold pending in Hpend.
    destruct (_lasttagline reader) as [|c last] eqn:El; [done|].
    simpl in Hpend. injection Hpend as <- Hpend.
    destruct (next_builds reader entry Hfp) as (reader' & Hnext & Hfp' & Hpend').
    { by rewrite El. }
    { by rewrite El. }
    destruct (IH fuel reader' bad rest Hfp') as (entries & e & Hiter & Hall & Hsurf);
      try done.
    { by rewrite Hpend'. }
    { simpl in Hfuel. lia. }
    exists (entry :: entries), e. split_and!.
    + simpl. by rewrite Hnext, Hiter.
    + by constructor.
    + pose proof (next_lasttagline_ind reader) as Hind.
      rewrite Hnext in Hind. simpl in Hind. by rewrite <- Hind.
Qed.

Theorem reader_stops_at_first_error (text : str) (good : list (str * list str))
    (bad : str * list str) (rest : list (str * list str)) :
  blocks (StringIO text) = good ++ bad :: rest ->
  Forall valid_block good ->
  ~ valid_block bad ->
  exists entries e,
    iterate (S (length (StringIO text))) (TaggedReader_init (StringIO text))
      = Some (entries, e)
    /\ Forall2 builds entries good
    /\ e <> StopIteration
    /\ surfaced (length (block_data (StringIO text))) bad.1 bad.2 = Raise e.
Proof.
  intros Hblocks Hgood Hbad.
  pose proof (StringIO_nonempty text) as Hlines.
  destruct (TaggedReader_init_pending _ Hlines) as [Hpend Hfp].
  destruct (TaggedReader_init_index _ Hlines) as [Hind _].
  destruct (iterate_first_error good (S (length (StringIO text)))
              (TaggedReader_init (StringIO text)) bad rest Hfp)
    as (entries & e & Hiter & Hall & Hsurf); try done.
  { by rewrite Hpend. }
  { pose proof (blocks_length (StringIO text)) as Hlen.
    rewrite Hblocks, length_app in Hlen. simpl in Hlen. lia. }
  rewrite Hind in Hsurf.
  exists entries, e. split_and!; try done.
  intros ->. unfold surfaced in Hsurf.
  destruct (TaggedEntry_init bad.1 (PList bad.2)) as [entry|[]] eqn:E; try done.
  by apply TaggedEntry_init_no_stop in E.
Qed.

(** A collection constructed from a reader over a file whose blocks are all
    valid holds the entries of the blocks, in file order. *)
Theorem collection_of_valid_file (text : str) :
  Forall valid_block (blocks (StringIO text)) ->
  exists coll,
    TaggedCollection_of_reader (S (length (StringIO text)))
      (TaggedReader_init (StringIO text)) = Some (Ok coll)
    /\ Forall2 builds (_entries coll) (blocks (StringIO text)).
Proof.
  intros Hvalid.
  destruct (TaggedReader_init_pending _ (StringIO_nonempty text)) as [Hpend Hfp].
  destruct (iterate_pending (S (length (StringIO text)))
              (TaggedReader_init (StringIO text)) Hfp) as (entries & Hiter & Hall).
  { rewrite Hpend. pose proof (blocks_length (StringIO text)). lia. }
  { by rewrite Hpend. }
  rewrite Hpend in Hall.
  exists (TaggedCollection_init entries).
  unfold TaggedCollection_of_reader. rewrite Hiter. simpl. split; [done|].
  unfold TaggedCollection_init. by rewrite extend_entries.
Qed.

End ReaderFacts.

(* ===================================================================== *)
(** ** More worked examples *)
(* ===================================================================== *)

Section MoreExamples.
#[local] Existing Instance Literal.carriers.
#[local] Existing Instance Literal.numpy.

Ltac fields_ok :=
  unfold header_fields, digits; split_and!;
  try done; repeat constructor; done || discriminate.

Ltac computed := vm_compute; reflexivity.

(** Witness of [TaggedEntry_consistent]: a 2 x 2 integer array. *)
Lemma TaggedEntry_consistent_witness :
  exists entry,
    TaggedEntry_init (Sample.line "@b:integer:2:2,2")
      (PList [Sample.line "1 2"; Sample.line "3 4"]) = Ok entry
    /\ tagline entry = strip (Sample.line "@b:integer:2:2,2")
    /\ name entry <> []
    /\ known_dtype (dtype entry)
    /\ rank entry < 10
    /\ length (shape entry) = rank entry
    /\ nd_shape (data entry) = shape entry
    /\ array_len (nd_flat (data entry)) = fold_right Nat.mul 1 (shape entry).
Proof.
  eexists. split; [computed|].
  apply (TaggedEntry_consistent (Sample.line "@b:integer:2:2,2")
           (PList [Sample.line "1 2"; Sample.line "3 4"])).
  computed.
Defined.

(** Witness of [TaggedEntry_header_fields]. *)
Lemma TaggedEntry_header_fields_witness :
  header_fields (lit "m") (lit "logical") "1" [lit "2"]
  /\ exists entry,
       TaggedEntry_init (header_text (lit "m") (lit "logical") "1" [lit "2"] ++ [newline])
         (PList [Sample.line " T F"]) = Ok entry
       /\ name entry = lit "m"
       /\ dtype entry = lit "logical"
       /\ rank entry = 1
       /\ shape entry = [2]
       /\ tagline entry = lit "@m:logical:1:2".
Proof.
  assert (header_fields (lit "m") (lit "logical") "1" [lit "2"]) as Hf by fields_ok.
  split; [exact Hf|]. eexists. split; [computed|].
  apply (TaggedEntry_header_fields (lit "m") (lit "logical") "1" [lit "2"] [newline]
           (PList [Sample.line " T F"]) _ Hf); [by right | computed].
Defined.

(** Witness of [same_header_comparable]. *)
Lemma same_header_comparable_witness :
  exists e1 e2,
    TaggedEntry_init (Sample.line "@a:logical:0:") (PList [Sample.line " T"]) = Ok e1
    /\ TaggedEntry_init (Sample.line "@a:logical:0:") (PList [Sample.line " F"]) = Ok e2
    /\ data e1 <> data e2
    /\ iscomparable e1 e2 = true.
Proof.
  eexists _, _. split_and!; [computed | computed | discriminate |].
  apply (same_header_comparable (Sample.line "@a:logical:0:")
           (PList [Sample.line " T"]) (PList [Sample.line " F"])); computed.
Defined.

(** Witness of [missing_shape_raises]: the header [@a:real:1:]. *)
Lemma missing_shape_raises_witness :
  header_fields (lit "a") (lit "real") "1" []
  /\ TaggedEntry_init (Sample.line "@a:real:1:") (PList [Sample.line "1.0"])
     = Raise ValueError.
Proof.
  assert (header_fields (lit "a") (lit "real") "1" []) as Hf by fields_ok.
  split; [exact Hf|].
  apply (missing_shape_raises (lit "a") (lit "real") "1" [newline]
           (PList [Sample.line "1.0"]) Hf); [by right | vm_compute; lia].
Defined.

(** Witness of [unknown_dtype_raises]: the dtype [float]. *)
Lemma unknown_dtype_raises_witness :
  header_fields (lit "a") (lit "float") "0" []
  /\ ~ known_dtype (lit "float")
  /\ TaggedEntry_init (Sample.line "@a:float:0:") (PList [Sample.line "1.0"])
     = Raise (InvalidEntryError 0 0 (lit "Invalid data dtype 'float'")).
Proof.
  assert (header_fields (lit "a") (lit "float") "0" []) as Hf by fields_ok.
  assert (~ known_dtype (lit "float")) as Hu by (intros [?|[?|[?|?]]]; discriminate).
  split_and!; [exact Hf | exact Hu |].
  apply (unknown_dtype_raises (lit "a") (lit "float") "0" [] [newline]
           (PList [Sample.line "1.0"]) Hf); [by right | by left | exact Hu].
Defined.

(** Witness of [array_outcome]: two values for a shape of two. *)
Lemma array_outcome_witness :
  header_fields (lit "m") (lit "logical") "1" [lit "2"]
  /\ call {| cls := LogicalConverter; nolist := false |} (PList [Sample.line " T F"])
     = Ok (CArray (ABool [true; false]))
  /\ TaggedEntry_init (Sample.line "@m:logical:1:2") (PList [Sample.line " T F"])
     = Ok {| tagline := lit "@m:logical:1:2"; name := lit "m";
             dtype := lit "logical"; rank := 1; shape := [2];
             data := {| nd_shape := [2]; nd_flat := ABool [true; false] |} |}.
Proof.
  assert (header_fields (lit "m") (lit "logical") "1" [lit "2"]) as Hf by fields_ok.
  split_and!; [exact Hf | computed |].
  apply (array_outcome (lit "m") (lit "logical") "1" [lit "2"] [newline]
           (PList [Sample.line " T F"]) {| cls := LogicalConverter; nolist := false |}
           (ABool [true; false]) Hf);
    [by right | vm_compute; lia | done | computed | computed].
Defined.

(** Witness of [conversion_error_reraised]. *)
Lemma conversion_error_reraised_witness :
  header_fields (lit "a") (lit "logical") "0" []
  /\ call {| cls := LogicalConverter; nolist := false |} (PList [Sample.line " x"])
     = Raise (ConversionError (lit "Unable to convert 'x' to logical: "))
  /\ TaggedEntry_init (Sample.line "@a:logical:0:") (PList [Sample.line " x"])
     = Raise (InvalidEntryError 0 0 (lit "Unable to convert 'x' to logical: ")).
Proof.
  assert (header_fields (lit "a") (lit "logical") "0" []) as Hf by fields_ok.
  split_and!; [exact Hf | computed |].
  apply (conversion_error_reraised (lit "a") (lit "logical") "0" [] [newline]
           (PList [Sample.line " x"]) {| cls := LogicalConverter; nolist := false |}
           _ Hf); [by right | by left | computed | computed].
Defined.

Lemma sample_names_differ : NoDup (map name [Sample.x1; Sample.y]).
Proof.
  apply NoDup_cons. split; [|apply NoDup_singleton].
  intros Hin%list_elem_of_singleton. discriminate Hin.
Defined.

(** Witness of [get_distinct_names]. *)
Lemma get_distinct_names_witness :
  NoDup (map name [Sample.x1; Sample.y])
  /\ get (TaggedCollection_init [Sample.x1; Sample.y]) (lit "y") = Ok (Some Sample.y).
Proof.
  split; [exact sample_names_differ|].
  apply (get_distinct_names [Sample.x1; Sample.y] 1 Sample.y sample_names_differ).
  reflexivity.
Defined.

(** Witness of [remove_state]. *)
Lemma remove_state_witness :
  let coll := TaggedCollection_init [Sample.x1; Sample.y] in
  _names coll !! lit "x" = Some 0
  /\ (remove coll (lit "x")).1 = Raise AttributeError
  /\ _entries (remove coll (lit "x")).2 = [Sample.y]
  /\ get (remove coll (lit "x")).2 (lit "x") = Ok None.
Proof.
  intros coll.
  assert (_names coll !! lit "x" = Some 0) as Hidx by computed.
  destruct (remove_state coll (lit "x") 0 Hidx) as (Hr & _ & He & _ & Hg).
  - vm_compute. lia.
  - split_and!; [exact Hidx | exact Hr | by rewrite He | exact Hg].
Defined.

(** Witness of [remove_shifts_later]: after the removal of [x], the name
    [y] leads out of the sequence. *)
Lemma remove_shifts_later_witness :
  get (remove (TaggedCollection_init [Sample.x1; Sample.y]) (lit "x")).2 (lit "y")
  = Raise IndexError.
Proof.
  apply (remove_shifts_later [Sample.x1; Sample.y] 0 1 Sample.x1 Sample.y
           sample_names_differ); [reflexivity | reflexivity | lia].
Defined.

(** Witness of [remove_keeps_earlier]. *)
Lemma remove_keeps_earlier_witness :
  get (remove (TaggedCollection_init [Sample.x1; Sample.y]) (lit "y")).2 (lit "x")
  = Ok (Some Sample.x1).
Proof.
  apply (remove_keeps_earlier [Sample.x1; Sample.y] 1 0 Sample.y Sample.x1
           sample_names_differ); [reflexivity | reflexivity | lia].
Defined.

(** Witness of [lines_as_block]. *)
Lemma lines_as_block_witness :
  Forall ends_blank [Sample.line "1 2"]
  /\ Converter_call {| cls := FloatConverter; nolist := false |}
       (PList [Sample.line "1 2"; lit "3"])
     = Converter_call {| cls := FloatConverter; nolist := false |}
         (PStr (Sample.line "1 2" ++ lit "3")).
Proof.
  assert (Forall ends_blank [Sample.line "1 2"]) as Hl.
  { constructor; [|constructor]. exists (lit "1 2"), newline. by split. }
  split; [exact Hl|].
  apply (lines_as_block {| cls := FloatConverter; nolist := false |}
           [Sample.line "1 2"] (lit "3") Hl).
Defined.

(** Witness of [nolist_blank]. *)
Lemma nolist_blank_witness :
  split (lit "  ") = []
  /\ call {| cls := FloatConverter; nolist := true |} (PStr (lit "  ")) = Raise IndexError
  /\ call {| cls := ComplexConverter; nolist := true |} (PStr (lit "  "))
     = Raise (ConversionError (lit "Too many values")).
Proof.
  split_and!; [reflexivity | |].
  - apply (nolist_blank {| cls := FloatConverter; nolist := true |} (lit "  "));
      reflexivity.
  - apply (nolist_blank {| cls := ComplexConverter; nolist := true |} (lit "  "));
      reflexivity.
Defined.

(** Witness of [LogicalConverter_names_offender]. *)
Lemma LogicalConverter_names_offender_witness :
  logical_value (lit "T") = Some true
  /\ logical_value (lit "x") = None
  /\ LogicalConverter_convert [lit "T"; lit "x"; lit "y"]
     = Raise (ConversionError (lit "Unable to convert 'x' to logical: ")).
Proof.
  assert (logical_value (lit "T") = Some true) as HT by computed.
  assert (logical_value (lit "x") = None) as Hx by computed.
  split_and!; [exact HT | exact Hx |].
  apply (LogicalConverter_names_offender [lit "T"] (lit "x") [lit "y"]);
    [|exact Hx].
  constructor; [|constructor]. exists true. exact HT.
Defined.

(** Witness of [ComplexConverter_block]: four tokens, two numbers. *)
Lemma ComplexConverter_block_witness :
  mapM (M := option) float_of_str (split (lit "1.0 2.0 3.0 4.0"))
    = Some [lit "1.0"; lit "2.0"; lit "3.0"; lit "4.0"]
  /\ ComplexConverter_call {| cls := ComplexConverter; nolist := false |}
       (PStr (lit "1.0 2.0 3.0 4.0"))
     = Ok (CArray (AComplex [(lit "1.0", lit "2.0"); (lit "3.0", lit "4.0")])).
Proof.
  assert (mapM (M := option) float_of_str (split (lit "1.0 2.0 3.0 4.0"))
          = Some [lit "1.0"; lit "2.0"; lit "3.0"; lit "4.0"]) as Htmp by computed.
  split; [exact Htmp|].
  exact (ComplexConverter_block (lit "1.0 2.0 3.0 4.0") _ Htmp).
Defined.

(** Witness of [readnext_conserves]: prose in front of a header. *)
Lemma readnext_conserves_witness :
  let fp := StringIO Sample.three_entries in
  Forall (fun line => line <> []) fp
  /\ (_readnext_tagline fp).1.1 = [Sample.line "some prose"]
  /\ fp = (_readnext_tagline fp).1.1
            ++ (_readnext_tagline fp).1.2 :: (_readnext_tagline fp).2.
Proof.
  intros fp.
  assert (Forall (fun line => line <> []) fp) as Hfp by apply StringIO_nonempty.
  destruct (readnext_conserves fp (_readnext_tagline fp).1.1
              (_readnext_tagline fp).1.2 (_readnext_tagline fp).2 Hfp)
    as [_ [(Hend & _)|[_ Heq]]].
  - by destruct (_readnext_tagline fp) as [[? ?] ?].
  - vm_compute in Hend. discriminate Hend.
  - split_and!; [exact Hfp | reflexivity | exact Heq].
Defined.

(** Witness of [first_error_lines]: a malformed block behind one line of
    prose; header on line 2, data on line 3, reported as 2 to 2. *)
Lemma first_error_lines_witness :
  let text := Sample.line "prose" ++ Sample.line "@b:logical:1:2" ++ Sample.line " F" in
  (next (TaggedReader_init (StringIO text))).1
    = Raise (InvalidEntryError 2 2 (lit "Invalid nr. of values"))
  /\ StringIO text !! 1 = Some (Sample.line "@b:logical:1:2")
  /\ 2 = (2 - 1) + length (block_data (drop 2 (StringIO text))).
Proof.
  intros text.
  assert ((next (TaggedReader_init (StringIO text))).1
          = Raise (InvalidEntryError 2 2 (lit "Invalid nr. of values"))) as Hnext
    by computed.
  destruct (first_error_lines text 2 2 _ Hnext) as (header & _ & Hh & _ & _ & He).
  split_and!; [exact Hnext | reflexivity | exact He].
Defined.

(** Witness of [reader_stops_at_first_error]: the first entry is produced,
    the second block ends the iteration. *)
Lemma reader_stops_at_first_error_witness :
  let good := [(Sample.line "@a:logical:0:", [Sample.line " T"])] in
  let bad := (Sample.line "@b:logical:1:2", [Sample.line " F"]) in
  blocks (StringIO Sample.second_malformed) = good ++ [bad]
  /\ Forall valid_block good
  /\ ~ valid_block bad
  /\ exists entries e,
       iterate 5 (TaggedReader_init (StringIO Sample.second_malformed))
         = Some (entries, e)
       /\ map name entries = [lit "a"]
       /\ e = InvalidEntryError 1 1 (lit "Invalid nr. of values").
Proof.
  intros good bad.
  assert (blocks (StringIO Sample.second_malformed) = good ++ [bad]) as Hb
    by computed.
  assert (Forall valid_block good) as Hg.
  { constructor; [|constructor]. eexists. unfold builds. computed. }
  assert (~ valid_block bad) as Hbad.
  { intros [entry He]. unfold builds in He. vm_compute in He. discriminate He. }
  split_and!; [exact Hb | exact Hg | exact Hbad |].
  destruct (reader_stops_at_first_error Sample.second_malformed good bad [] Hb Hg Hbad)
    as (entries & e & Hiter & _ & _ & _).
  exists entries, e. split; [exact Hiter|].
  vm_compute in Hiter. injection Hiter as <- <-. split; reflexivity.
Defined.

(** Witness of [collection_of_valid_file]. *)
Lemma collection_of_valid_file_witness :
  Forall valid_block (blocks (StringIO Sample.three_entries))
  /\ exists coll,
       TaggedCollection_of_reader 9 (TaggedReader_init (StringIO Sample.three_entries))
         = Some (Ok coll)
       /\ map name (_entries coll) = [lit "a"; lit "m"; lit "b"].
Proof.
  assert (Forall valid_block (blocks (StringIO Sample.three_entries))) as Hvalid.
  { let bs := eval vm_compute in (blocks (StringIO Sample.three_entries)) in
    change (blocks (StringIO Sample.three_entries)) with bs.
    repeat (constructor; [eexists; vm_compute; reflexivity|]). constructor. }
  split; [exact Hvalid|].
  destruct (collection_of_valid_file Sample.three_entries Hvalid)
    as (coll & Hcoll & _).
  exists coll. split; [exact Hcoll|].
  vm_compute in Hcoll. injection Hcoll as <-. reflexivity.
Defined.

End MoreExamples.

(* ===================================================================== *)
(** ** Lines without comments *)
(* ===================================================================== *)

Module NonCommFacts.
Import NonComm.

Lemma startswith_prefix (sep s : str) :
  startswith sep s = true <-> exists rest, s = sep ++ rest.
Proof.
  revert s. induction sep as [|a sep IH]; intros s; simpl.
  - split; [by exists s | done].
  - destruct s as [|b s]; [split; [done | by intros [? ?]]|].
    rewrite andb_true_iff, IH. unfold chr_eqb. rewrite Ascii.eqb_eq. split.
    + intros [-> [rest ->]]. by exists rest.
    + intros [rest [= -> ->]]. eauto.
Qed.

(** What is kept of a line is the front of the line. *)
Lemma before_prefix (sep s : str) : exists rest, s = before sep s ++ rest.
Proof.
  induction s as [|c s [rest IH]]; simpl; [by exists []|].
  destruct (startswith sep (c :: s)); [by eexists|].
  exists rest. simpl. by rewrite <- IH.
Qed.

(** What is kept of a line holds no comment sign. *)
Theorem before_no_comment (sep s front back : str) :
  sep <> [] -> before sep s <> front ++ sep ++ back.
Proof.
  intros Hsep. revert front. induction s as [|c s IH]; intros front; simpl.
  - intros Heq. symmetry in Heq. apply app_eq_nil in Heq as [_ Heq].
    by apply app_eq_nil in Heq as [? _].
  - destruct (startswith sep (c :: s)) eqn:Hstart.
    + intros Heq. symmetry in Heq. apply app_eq_nil in Heq as [_ Heq].
      by apply app_eq_nil in Heq as [? _].
    + destruct front as [|x front]; simpl.
      * intros Heq.
        destruct (before_prefix sep s) as [rest Hrest].
        assert (startswith sep (c :: s) = true) as Hyes; [|congruence].
        apply startswith_prefix. exists (back ++ rest).
        rewrite Hrest, app_comm_cons, Heq. by rewrite <- app_assoc.
      * intros [= <- Heq]. by apply IH in Heq.
Qed.

(** Iterating produces, in file order, what stands in front of the comment
    sign on each line, the blank results left out, and then stops. *)
Lemma collect_lines (comment : str) (fp : list str) :
  comment <> [] ->
  Forall (fun line => line <> []) fp ->
  forall fuel, length fp < fuel ->
  collect fuel comment fp
  = Some (List.filter (fun word => negb (blank word)) (map (before comment) fp),
          StopIteration).
Proof.
  intros Hc Hfp. induction Hfp as [|line fp Hline _ IH]; intros fuel Hfuel.
  - destruct fuel; [simpl in Hfuel; lia | done].
  - destruct fuel as [|fuel]; [simpl in Hfuel; lia|].
    simpl in Hfuel.
    assert (forall f, collect (S f) comment (line :: fp)
                      = if blank (before comment line)
                        then collect (S f) comment fp
                        else '(words, e) ← collect f comment fp;
                             Some (before comment line :: words, e)) as Hstep.
    { intros f. simpl. destruct line as [|c line]; [done|].
      destruct comment as [|a comment]; [done|].
      destruct (blank (before (a :: comment) (c :: line))); done. }
    rewrite Hstep. cbn [map List.filter]. clear Hstep.
    destruct (blank (before comment line)); cbn [negb].
    + apply IH. lia.
    + rewrite IH by lia. done.
Qed.

Theorem collect_text `{Numpy} (comment text : str) :
  comment <> [] ->
  collect (S (length (StringIO text))) comment (StringIO text)
  = Some (List.filter (fun word => negb (blank word))
            (map (before comment) (StringIO text)),
          StopIteration).
Proof.
  intros Hc. apply collect_lines; [done | apply StringIO_nonempty | lia].
Qed.

End NonCommFacts.

(* ===================================================================== *)
(** ** The logger *)
(* ===================================================================== *)

Module LoggerFacts.
Import Logger.

Lemma indent_ok_init (out : str) : indent_ok out (init out).
Proof. unfold indent_ok, init, _setindent, INDENTWIDTH, spaces. simpl. done. Qed.

Lemma indent_ok_op (out : str) (self : TestLogger) (op : indent_op) :
  indent_ok out self -> indent_ok out (apply_op self op).
Proof.
  intros (Hl & Hw & Hi & Hn & Hf). destruct op; simpl.
  - unfold indent_ok, increaseindent, _setindent, INDENTWIDTH, spaces. simpl.
    split_and!; [lia | lia | done | by rewrite length_replicate | done].
  - unfold decreaseindent. destruct (_indentlevel self =? 0)%Z eqn:E; [done|].
    apply Z.eqb_neq in E.
    unfold indent_ok, _setindent, INDENTWIDTH, spaces. simpl.
    split_and!; [lia | lia | done | by rewrite length_replicate | done].
Qed.

Lemma indent_ok_ops (out : str) (ops : list indent_op) (self : TestLogger) :
  indent_ok out self -> indent_ok out (fold_left apply_op ops self).
Proof.
  revert self. induction ops as [|op ops IH]; intros self Hok; [done|].
  simpl. by apply IH, indent_ok_op.
Qed.

(** The indentation a logger is in after any calls of [increaseindent] and
    [decreaseindent]: the level never falls below 0, the width is twice the
    level, the indent is that many blanks, and nothing is written. *)
Theorem indent_invariant (out : str) (ops : list indent_op) :
  let self := fold_left apply_op ops (init out) in
  (0 <= _indentlevel self)%Z
  /\ _indentwidth self = (2 * _indentlevel self)%Z
  /\ _indent self = spaces (_indentwidth self)
  /\ length (_indent self) = Z.to_nat (_indentwidth self)
  /\ fp self = out.
Proof.
  intros self. apply (indent_ok_ops out ops (init out)). apply indent_ok_init.
Qed.

Lemma take_take_drop {A} (l : list A) (n m : nat) :
  take n l ++ take m (drop n l) = take (n + m) l.
Proof.
  revert l. induction n as [|n IH]; intros l; simpl; [done|].
  destruct l as [|x l]; simpl; [by rewrite take_nil | by rewrite IH].
Qed.

Lemma concat_chunks {A} (l : list A) (n k : nat) :
  concat (map (fun ii => take n (drop ii l)) (map (fun j => j * n) (seq 0 k)))
  = take (k * n) l.
Proof.
  induction k as [|k IH]; [done|].
  rewrite seq_S, !map_app, concat_app, IH. simpl.
  rewrite app_nil_r, take_take_drop. f_equal. lia.
Qed.

Lemma breakline_cut (self : TestLogger) (line : str) (width : option Z) :
  (0 < room self width)%Z ->
  exists pieces,
    _breakline self line width = Ok pieces
    /\ concat pieces = line
    /\ Forall (fun piece => 0 < length piece <= Z.to_nat (room self width)) pieces.
Proof.
  intros Hroom. unfold _breakline.
  assert ((room self width =? 0)%Z = false) as -> by (apply Z.eqb_neq; lia).
  assert ((room self width <? 0)%Z = false) as -> by (apply Z.ltb_ge; lia).
  set (n := Z.to_nat (room self width)).
  assert (0 < n) as Hn by (unfold n; lia).
  eexists. split; [done|]. unfold range0. split.
  - rewrite concat_chunks. apply take_ge.
    pose proof (Nat.div_mod_eq (length line + n - 1) n) as Hdiv.
    pose proof (Nat.mod_upper_bound (length line + n - 1) n ltac:(lia)) as Hmod.
    nia.
  - apply Forall_forall. intros piece Hin.
    apply list_elem_of_fmap in Hin as (ii & -> & Hii).
    apply list_elem_of_fmap in Hii as (k & -> & Hk).
    apply elem_of_seq in Hk as [_ Hk]. simpl in Hk.
    assert (k * n < length line) as Hlt.
    { pose proof (Nat.div_mod_eq (length line + n - 1) n) as Hdiv.
      pose proof (Nat.mod_upper_bound (length line + n - 1) n ltac:(lia)) as Hmod.
      nia. }
    rewrite length_take, length_drop. lia.
Qed.

(** [_breakline] with room for text cuts the line into pieces, none empty
    and none longer than the room, which put together give the line back. *)
Theorem breakline_pieces (self : TestLogger) (line : str) (width : option Z)
    (pieces : list str) :
  (0 < room self width)%Z ->
  _breakline self line width = Ok pieces ->
  concat pieces = line
  /\ Forall (fun piece => 0 < length piece <= Z.to_nat (room self width)) pieces.
Proof.
  intros Hroom Hb.
  destruct (breakline_cut self line width Hroom) as (pieces' & Hb' & Hc & Hp).
  rewrite Hb in Hb'. injection Hb' as <-. done.
Qed.

Lemma fold_write1 (pieces : list str) (self : TestLogger) :
  fp (fold_left write1 pieces self)
  = fp self ++ concat (map (fun piece => _indent self ++ piece ++ [newline]) pieces)
  /\ _indent (fold_left write1 pieces self) = _indent self
  /\ _indentlevel (fold_left write1 pieces self) = _indentlevel self
  /\ _indentwidth (fold_left write1 pieces self) = _indentwidth self.
Proof.
  revert self. induction pieces as [|piece pieces IH]; intros self; simpl.
  - by rewrite app_nil_r.
  - destruct (IH (write1 self piece)) as (-> & -> & -> & ->). simpl.
    by rewrite <- !app_assoc.
Qed.

(** [writeline] with [breakline] set, in an indentation that leaves room:
    the line is written in pieces, each behind the indent and within the
    line width of 80, and the pieces give the line back. *)
Theorem writeline_fits (out : str) (ops : list indent_op) (line : str) :
  let self := fold_left apply_op ops (init out) in
  (_indentlevel self < 40)%Z ->
  exists pieces,
    concat pieces = line
    /\ (writeline self line true).1 = Ok tt
    /\ fp (writeline self line true).2
       = out ++ concat (map (fun piece => _indent self ++ piece ++ [newline]) pieces)
    /\ Forall (fun piece => 0 < length piece
                            /\ length (_indent self ++ piece) <= 80) pieces.
Proof.
  intros self Hlevel.
  destruct (indent_ok_ops out ops (init out) (indent_ok_init out))
    as (Hl & Hw & Hi & Hn & Hf).
  fold self in Hl, Hw, Hi, Hn, Hf.
  assert (0 < room self None)%Z as Hroom.
  { unfold room, LINEWIDTH. lia. }
  destruct (breakline_cut self line None Hroom) as (pieces & Hb & Hc & Hp).
  exists pieces. unfold writeline. rewrite Hb. simpl.
  destruct (fold_write1 pieces self) as (-> & _). rewrite Hf.
  split_and!; try done.
  eapply Forall_impl; [exact Hp|]. intros piece [H1 H2]. split; [done|].
  rewrite length_app, Hn. unfold room, LINEWIDTH in H2. lia.
Qed.

(** Forty levels of indentation leave no room: [range] refuses the step 0
    and [writeline] raises [ValueError].  Deeper still, the step is negative,
    the line breaks into no pieces, and [writeline] returns without writing
    any of the text. *)
Theorem writeline_no_room (out : str) (ops : list indent_op) (line : str) :
  let self := fold_left apply_op ops (init out) in
  (40 <= _indentlevel self)%Z ->
  writeline self line true
  = (if (_indentlevel self =? 40)%Z then Raise ValueError else Ok tt, self).
Proof.
  intros self Hlevel.
  destruct (indent_ok_ops out ops (init out) (indent_ok_init out))
    as (Hl & Hw & Hi & Hn & Hf).
  fold self in Hl, Hw, Hi, Hn, Hf.
  unfold writeline, _breakline, room, LINEWIDTH. rewrite Hw.
  destruct (_indentlevel self =? 40)%Z eqn:E.
  - apply Z.eqb_eq in E. rewrite E. done.
  - apply Z.eqb_neq in E.
    assert ((80 - 2 * _indentlevel self =? 0)%Z = false) as ->
      by (apply Z.eqb_neq; lia).
    assert ((80 - 2 * _indentlevel self <? 0)%Z = true) as ->
      by (apply Z.ltb_lt; lia).
    done.
Qed.

End LoggerFacts.

(* ===================================================================== *)
(** ** Worked examples for the io modules *)
(* ===================================================================== *)

Section IoExamples.
#[local] Existing Instance Literal.carriers.
#[local] Existing Instance Literal.numpy.

(** Witness of [NonCommFacts.before_no_comment]. *)
Lemma before_no_comment_witness :
  lit "#" <> []
  /\ NonComm.before (lit "#") (Sample.line "line1 # comment1") = lit "line1 "
  /\ NonComm.before (lit "#") (Sample.line "line1 # comment1")
     <> lit "line" ++ lit "#" ++ lit "1".
Proof.
  split_and!; [discriminate | reflexivity |].
  apply (NonCommFacts.before_no_comment (lit "#")). discriminate.
Defined.

(** Witness of [NonCommFacts.collect_text]: the example of the module. *)
Lemma collect_text_witness :
  let text := Sample.line "line1 # comment1" ++ Sample.line "# comment2"
              ++ Sample.line "line3 # comment3" in
  lit "#" <> []
  /\ NonComm.collect 4 (lit "#") (StringIO text)
     = Some ([lit "line1 "; lit "line3 "], StopIteration).
Proof.
  intros text.
  assert (lit "#" <> []) as Hc by discriminate.
  split; [exact Hc|].
  exact (NonCommFacts.collect_text (lit "#") text Hc).
Defined.

(** A logger two levels deep. *)
Lemma two_levels :
  fold_left Logger.apply_op [Logger.Increase; Logger.Increase] (Logger.init [])
  = {| Logger.fp := []; Logger._indentlevel := 2; Logger._indentwidth := 4;
       Logger._indent := lit "    " |}.
Proof. reflexivity. Defined.

(** Witness of [LoggerFacts.breakline_pieces]: ten characters in a width of
    eight, two levels deep. *)
Lemma breakline_pieces_witness :
  let self := fold_left Logger.apply_op [Logger.Increase; Logger.Increase]
                (Logger.init []) in
  (0 < Logger.room self (Some 8%Z))%Z
  /\ Logger._breakline self (lit "abcdefghij") (Some 8%Z)
     = Ok [lit "abcd"; lit "efgh"; lit "ij"]
  /\ concat [lit "abcd"; lit "efgh"; lit "ij"] = lit "abcdefghij".
Proof.
  intros self.
  assert (0 < Logger.room self (Some 8%Z))%Z as Hroom by (vm_compute; reflexivity).
  assert (Logger._breakline self (lit "abcdefghij") (Some 8%Z)
          = Ok [lit "abcd"; lit "efgh"; lit "ij"]) as Hb by (vm_compute; reflexivity).
  split_and!; [exact Hroom | exact Hb |].
  apply (LoggerFacts.breakline_pieces self (lit "abcdefghij") (Some 8%Z) _ Hroom Hb).
Defined.

(** Witness of [LoggerFacts.writeline_fits]. *)
Lemma writeline_fits_witness :
  let self := fold_left Logger.apply_op [Logger.Increase; Logger.Increase]
                (Logger.init []) in
  (Logger._indentlevel self < 40)%Z
  /\ exists pieces,
       concat pieces = lit "abc"
       /\ (Logger.writeline self (lit "abc") true).1 = Ok tt
       /\ Logger.fp (Logger.writeline self (lit "abc") true).2
          = [] ++ concat (map (fun piece => Logger._indent self ++ piece ++ [newline])
                            pieces)
       /\ Forall (fun piece => 0 < length piece
                               /\ length (Logger._indent self ++ piece) <= 80) pieces.
Proof.
  intros self.
  assert (Logger._indentlevel self < 40)%Z as Hlevel by (vm_compute; reflexivity).
  split; [exact Hlevel|].
  exact (LoggerFacts.writeline_fits [] [Logger.Increase; Logger.Increase]
           (lit "abc") Hlevel).
Defined.

(** Witness of [LoggerFacts.writeline_no_room]: forty-one levels deep, the
    text is not written. *)
Lemma writeline_no_room_witness :
  let self := fold_left Logger.apply_op (replicate 41 Logger.Increase)
                (Logger.init []) in
  (40 <= Logger._indentlevel self)%Z
  /\ Logger.writeline self (lit "abc") true = (Ok tt, self)
  /\ Logger.fp self = [].
Proof.
  intros self.
  assert (40 <= Logger._indentlevel self)%Z as Hlevel by (vm_compute; discriminate).
  split_and!; [exact Hlevel | | reflexivity].
  exact (LoggerFacts.writeline_no_room [] (replicate 41 Logger.Increase)
           (lit "abc") Hlevel).
Defined.

End IoExamples.
